(** * buffs.py: the Lodestone consumables scraper

    A shallow embedding of [buffs.py] and the properties its
    specification states about it.

    Modelling choices, fixed once for the whole development:
    - the counter of [asyncio.Semaphore] is a [Z]; [acquire] needs a
      positive counter, [release] adds one;
    - the network is an oracle: for every request and every attempt it
      says whether [session.get]/[res.text()] raised, whether
      [json.loads] raised, or which decoded document came back.  The
      decoded documents have the shapes the two endpoints return
      (a listing page, an item payload);
    - the [while True: try ... except: pass] loops are run with fuel;
      a run that uses up its fuel is still looping ([Pending]);
    - Python dictionaries that are mutated after they were created (the
      [name] dictionaries of the records) live in a heap and records
      refer to them by location, so that aliasing is visible. *)

From stdpp Require Import base option list gmap strings sorting.
From Stdlib Require Import ZArith Lia Ascii.

Local Open Scope Z_scope.
Set Warnings "-clear-no-such-hyp".

(** ** The concurrency limiter: [FETCH_SEMAPHORE] *)

Module Limiter.

(** [asyncio.Semaphore(value)] refuses a negative initial value. *)
Definition Semaphore (n : Z) : option Z :=
  if decide (n < 0) then None else Some n.

(** [acquire] only goes through when the counter is positive; the
    caller is suspended otherwise ([None]). *)
Definition acquire (counter : Z) : option Z :=
  if decide (0 < counter) then Some (counter - 1) else None.

Definition release (counter : Z) : Z := counter + 1.

End Limiter.

(** ** Documents returned by the remote catalogue *)

(** One element of [data['items']['results']]. *)
Record result := { url_api : string }.

(** A listing page: [data['items']['results']] and
    [data['items']['paging']['total']]. *)
Record listing := {
  items_results : list result;
  items_paging_total : Z
}.

(** One element of [data["attributes_params"]]. *)
Record attribute := {
  id : Z;
  value : Z;
  percent : Z;
  value_hq : Z;
  percent_hq : Z
}.

(** An item payload, as the detail endpoint returns it. *)
Record payload := {
  name_en : string;
  name_fr : string;
  name_de : string;
  name_ja : string;
  level_item : Z;
  attributes_params : list attribute
}.

(** What one request attempt meets. *)
Inductive response (A : Type) :=
| GetRaised                 (* session.get / res.text() raised *)
| LoadsRaised               (* the body is not a JSON document *)
| Loaded (data : A).        (* json.loads returned [data] *)
Arguments GetRaised {A}.
Arguments LoadsRaised {A}.
Arguments Loaded {A} data.

Definition failed {A} (r : response A) : bool :=
  match r with Loaded _ => false | _ => true end.

Inductive category := Food | Medicine.

Definition CATEGORIES (c : category) : Z :=
  match c with Food => 46 | Medicine => 44 end.

(** The oracle: the attempts at a listing page are numbered from 0, and
    so are the attempts at a detail url. *)
Record network := {
  search : Z → Z → nat → response listing;   (* category id, page, attempt *)
  detail : string → nat → response payload   (* url, attempt *)
}.

(** ** The resilient fetcher *)

(** How a fuelled run of a retry loop ends.  There is no constructor
    for an exception: the bare [except:] clauses let none out. *)
Inductive status (A : Type) :=
| Returned (data : A)
| Blocked        (* suspended in [acquire] with nobody left to release *)
| Pending.       (* out of fuel: the loop is still going round *)
Arguments Returned {A} data.
Arguments Blocked {A}.
Arguments Pending {A}.

(** A run of a loop gives its status, the counter of the semaphore at
    that point and, as ghost state, the counter as it stood each time
    the [except:] handler was entered. *)
Definition run (A : Type) : Type := status A * Z * list Z.

Section retry.
Context {D A : Type}.
(** What the protected block computes from the decoded body. *)
Variable parse : D → A.
Variable attempts : nat → response D.

(** The body of [async with session.get(...) as res]; [None] stands
    for an exception. *)
Definition protected (r : response D) : option A :=
  match r with
  | GetRaised | LoadsRaised => None
  | Loaded data => Some (parse data)
  end.

(** [while True: try: async with FETCH_SEMAPHORE: ... break
    except: pass].  The permit is given back by [__aexit__] on both
    ways out of the block. *)
Fixpoint retry (fuel : nat) (k : nat) (sem : Z) (seen : list Z) : run A :=
  match fuel with
  | O => (Pending, sem, seen)
  | S fuel =>
      match Limiter.acquire sem with
      | None => (Blocked, sem, seen)
      | Some held =>
          match protected (attempts k) with
          | Some data => (Returned data, Limiter.release held, seen)
          | None =>
              let sem := Limiter.release held in
              retry fuel (S k) sem (seen ++ [sem])
          end
      end
  end.
End retry.

Definition parse_item_links_page (data : listing) : list string * Z :=
  let urls := map url_api (items_results data) in
  let pages := items_paging_total data in
  (urls, pages).

Definition fetch_item_links_page (net : network) (c : category) (page : Z)
    (fuel : nat) (sem : Z) : run (list string * Z) :=
  retry parse_item_links_page (search net (CATEGORIES c) page) fuel 0 sem [].

Definition fetch_page (net : network) (url : string)
    (fuel : nat) (sem : Z) : run payload :=
  retry (λ data, data) (detail net url) fuel 0 sem [].

(** ** Many fetch tasks on one event loop *)

(** The tasks of a run, interleaved by the event loop.  Each task is one
    call of [fetch_item_links_page] or of [fetch_page]; both kinds go
    through the one [FETCH_SEMAPHORE]. *)
Inductive job :=
| ListingPage (c : category) (page : Z)
| DetailPage (url : string).

Inductive pc := Waiting | Holding | Finished.

Record task := { work : job; at_pc : pc; attempt : nat }.

Record system := { permits : Z; tasks : list task }.

Definition goes_to (p : pc) (t : task) : task :=
  {| work := work t; at_pc := p; attempt := attempt t |}.

Definition again (t : task) : task :=
  {| work := work t; at_pc := Waiting; attempt := S (attempt t) |}.

(** Does the attempt the task is making end in an exception? *)
Definition raises (net : network) (t : task) : bool :=
  match work t with
  | ListingPage c page => failed (search net (CATEGORIES c) page (attempt t))
  | DetailPage url => failed (detail net url (attempt t))
  end.

Definition holding (t : task) : bool :=
  match at_pc t with Holding => true | _ => false end.

(** The number of requests in flight. *)
Definition in_flight (σ : system) : Z :=
  Z.of_nat (length (filter (λ t, holding t = true) (tasks σ))).

Definition start (n : Z) : option system :=
  counter ← Limiter.Semaphore n; Some {| permits := counter; tasks := [] |}.

Inductive step (net : network) : system → system → Prop :=
| step_spawn σ w :
    (* a coroutine is created for the next page or for a detail url *)
    step net σ {| permits := permits σ;
                  tasks := tasks σ ++ [{| work := w; at_pc := Waiting; attempt := 0 |}] |}
| step_enter σ i t counter :
    (* [__aenter__]: the task gets a permit *)
    tasks σ !! i = Some t → at_pc t = Waiting →
    Limiter.acquire (permits σ) = Some counter →
    step net σ {| permits := counter; tasks := <[i := goes_to Holding t]> (tasks σ) |}
| step_break σ i t :
    (* the body reached [break]; [__aexit__] releases *)
    tasks σ !! i = Some t → at_pc t = Holding → raises net t = false →
    step net σ {| permits := Limiter.release (permits σ);
                  tasks := <[i := goes_to Finished t]> (tasks σ) |}
| step_except σ i t :
    (* the body raised; [__aexit__] releases, [except: pass], next round *)
    tasks σ !! i = Some t → at_pc t = Holding → raises net t = true →
    step net σ {| permits := Limiter.release (permits σ);
                  tasks := <[i := again t]> (tasks σ) |}.

(** ** Sequential code: the state and its monad *)

(** The [name] dictionaries of the records and the dictionaries of the
    override table are Python objects: they live in a heap. *)
Abbreviation dict := (gmap string string).
Abbreviation store := (gmap positive dict).

Record state := { sem : Z; heap : store }.

Definition M (A : Type) : Type := state → status A * state.

#[global] Instance M_ret : MRet M := λ A a st, (Returned a, st).

#[global] Instance M_bind : MBind M := λ A B k m st,
  match m st with
  | (Returned a, st) => k a st
  | (Blocked, st) => (Blocked, st)
  | (Pending, st) => (Pending, st)
  end.

(** A fetch only touches the semaphore. *)
Definition await {A} (r : Z → run A) : M A := λ st,
  let '(s, counter, _) := r (sem st) in
  (s, {| sem := counter; heap := heap st |}).

(** A dictionary display creates a new object. *)
Definition alloc (d : dict) : M positive := λ st,
  let l := fresh (dom (heap st)) in
  (Returned l, {| sem := sem st; heap := <[l := d]> (heap st) |}).

Definition deref (h : store) (l : positive) : dict := default ∅ (h !! l).

(** ** The paginated enumerator *)

(** [pages] bounds the number of listing pages requested, [fuel] the
    attempts at each of them. *)
Fixpoint fetch_item_urls_from (net : network) (c : category)
    (pages fuel : nat) (page : Z) (urls : list string) : M (list string) :=
  match pages with
  | O => λ st, (Pending, st)
  | S pages =>
      '(page_urls, total) ← await (fetch_item_links_page net c page fuel);
      let urls := urls ++ page_urls in
      if decide (page < total)
      then fetch_item_urls_from net c pages fuel (page + 1) urls
      else mret urls
  end.

Definition fetch_item_urls (net : network) (c : category)
    (pages fuel : nat) : M (list string) :=
  fetch_item_urls_from net c pages fuel 1 [].

(** ** The detail harvester *)

(** An ItemRecord.  [name] refers to the record's dictionary of names;
    [stats] holds the keys added by the attribute scan
    (["craftsmanship_value"] and the like), so that a key which was
    never stored is absent. *)
Record item := {
  name : positive;
  hq : bool;
  ilvl : Z;
  stats : gmap string Z
}.

(** [f[key] = v] for one of the attribute keys. *)
Definition store_stat (key : string) (v : Z) (f : item) : item :=
  {| name := name f; hq := hq f; ilvl := ilvl f;
     stats := <[key := v]> (stats f) |}.

Definition names_of (data : payload) : dict :=
  {[ "en" := name_en data; "fr" := name_fr data;
     "de" := name_de data; "ja" := name_ja data ]}.

(** The four assignments made when [attr["id"]] is [n]. *)
Definition record_attribute (n : Z) (stat : string) (attr : attribute)
    (p : item * item) : item * item :=
  if decide (id attr = n) then
    let '(food, food_hq) := p in
    let food := store_stat (stat +:+ "_value") (value attr) food in
    let food := store_stat (stat +:+ "_percent") (percent attr) food in
    let food_hq := store_stat (stat +:+ "_value") (value_hq attr) food_hq in
    let food_hq := store_stat (stat +:+ "_percent") (percent_hq attr) food_hq in
    (food, food_hq)
  else p.

(** The body of [for attr in data["attributes_params"]]. *)
Definition scan_attribute (p : item * item) (attr : attribute) : item * item :=
  let p := record_attribute 70 "craftsmanship" attr p in
  let p := record_attribute 71 "control" attr p in
  let p := record_attribute 11 "cp" attr p in
  p.

(** [fetch_item] after [data] has arrived. *)
Definition make_records (data : payload) : M (list item) :=
  l ← alloc (names_of data);
  let food := {| name := l; hq := false; ilvl := level_item data; stats := ∅ |} in
  l_hq ← alloc (names_of data);
  let food_hq := {| name := l_hq; hq := true; ilvl := level_item data; stats := ∅ |} in
  let '(food, food_hq) := foldl scan_attribute (food, food_hq) (attributes_params data) in
  mret [food; food_hq].

Definition fetch_item (net : network) (url : string) (fuel : nat) : M (list item) :=
  data ← await (fetch_page net url fuel);
  make_records data.

(** [completed] lists the urls of the tasks in the order in which
    [asyncio.as_completed] hands their results over.  What follows
    [await fetch_page] in [fetch_item] has no suspension point, so the
    tasks can be run one after the other in that order. *)
Fixpoint fetch_items_from (net : network) (completed : list string) (fuel : nat)
    (food : list item) : M (list item) :=
  match completed with
  | [] => mret food
  | url :: completed =>
      r ← fetch_item net url fuel;
      fetch_items_from net completed fuel (food ++ r)
  end.

Definition fetch_items (net : network) (completed : list string) (fuel : nat)
    : M (list item) :=
  fetch_items_from net completed fuel [].

(** ** The aggregator *)

(** [r['name']['en']]; every record made by [fetch_item] has it. *)
Definition english_name (h : store) (r : item) : string :=
  default "" (deref h (name r) !! "en").

Definition sort_key (h : store) (r : item) : Z * string * bool :=
  (ilvl r, english_name h r, hq r).

(** [<] on the key tuples: the first component that differs decides. *)
Definition key_lt (a b : Z * string * bool) : bool :=
  let '(i1, n1, q1) := a in
  let '(i2, n2, q2) := b in
  if decide (i1 = i2) then
    if decide (n1 = n2) then negb q1 && q2
    else String.ltb n1 n2
  else bool_decide (i1 < i2).

(** [>=] on the key tuples. *)
Definition key_ge (a b : Z * string * bool) : bool :=
  let '(i1, n1, q1) := a in
  let '(i2, n2, q2) := b in
  if decide (i1 = i2) then
    if decide (n1 = n2) then q1 || negb q2
    else String.ltb n2 n1
  else bool_decide (i2 < i1).

(** [list.sort(key=..., reverse=True)] is a stable sort into descending
    order that only asks for [<] on the keys.  A stable sort has one
    possible result; the insertion sort below computes it. *)
Section sort.
Context {A K : Type}.
Variable key : A → K.
Variable lt : K → K → bool.

Fixpoint insert_reverse (x : A) (l : list A) : list A :=
  match l with
  | [] => [x]
  | y :: l' => if lt (key x) (key y) then y :: insert_reverse x l' else x :: l
  end.

Definition sort_reverse (l : list A) : list A := foldr insert_reverse [] l.
End sort.

(** [x or y] where [x] is [None] or a string. *)
Definition py_or (x : option string) (y : string) : string :=
  match x with
  | Some s => if decide (s = "") then y else s
  | None => y
  end.

(** [additional_languages]: language codes in insertion order, each
    with the location of its dictionary of names. *)
Abbreviation languages := (list (string * positive)).

(** The body of [for lang in additional_languages.keys()]. *)
Definition localize_name (f : item) (h : store) (entry : string * positive) : store :=
  let '(lang, l) := entry in
  let names := deref h l in
  let english_name := english_name h f in
  <[name f := <[lang := py_or (names !! english_name) english_name]> (deref h (name f))]> h.

(** The body of [for f in food]. *)
Definition localize_item (additional_languages : languages) (h : store) (f : item) : store :=
  foldl (localize_name f) h additional_languages.

Definition localize (additional_languages : languages) (food : list item) (h : store) : store :=
  foldl (localize_item additional_languages) h food.

(** Lines 137 to 143 of [fetch_all_items]: the sort, then the loop over
    the records; the list that is returned is the sorted one. *)
Definition sort_and_localize (additional_languages : languages)
    (food : list item) : M (list item) := λ st,
  let food := sort_reverse (sort_key (heap st)) key_lt food in
  (Returned food,
   {| sem := sem st; heap := localize additional_languages food (heap st) |}).

(** [schedule] is the order of completion the event loop happens to
    produce for a list of tasks. *)
Definition fetch_all_items (net : network) (c : category)
    (additional_languages : languages) (schedule : list string → list string)
    (pages fuel : nat) : M (list item) :=
  urls ← fetch_item_urls net c pages fuel;
  food ← fetch_items net (schedule urls) fuel;
  sort_and_localize additional_languages food.

(** ** Loading the override tables (in [main]) *)

(** [d[k] = v] on a dictionary kept in insertion order. *)
Fixpoint dict_set {V} (k : string) (v : V) (d : list (string * V)) : list (string * V) :=
  match d with
  | [] => [(k, v)]
  | (k', v') :: d' => if decide (k' = k) then (k, v) :: d' else (k', v') :: dict_set k v d'
  end.

(** [files] is what the [--lang-file] options gave: a language code and
    the mapping read from its file. *)
Fixpoint load_languages (files : list (string * dict))
    (additional_languages : languages) : M languages :=
  match files with
  | [] => mret additional_languages
  | (lang, names) :: files =>
      l ← alloc names;
      load_languages files (dict_set lang l additional_languages)
  end.

(** ** Writing the categories out ([scrape_items]) *)

(** The keys of [CATEGORIES], in the order of the dictionary display. *)
Definition CATEGORIES_keys : list category := [Food; Medicine].

Definition label (c : category) : string :=
  match c with Food => "Food" | Medicine => "Medicine" end.

(** What [json.dump] is given for one record: its names as they stand
    in the heap at that moment, [hq], [ilvl] and the attribute keys. *)
Definition dump (h : store) (recipes : list item)
    : list (dict * bool * Z * gmap string Z) :=
  (λ f, (deref h (name f), hq f, ilvl f, stats f)) <$> recipes.

(** How a run of [scrape_items] ends: the loop over the categories
    comes to its end, or [open] raises for an output file (nothing
    catches it, so the run is over), or a fetch is left waiting at the
    semaphore, or a fetch is still retrying when the fuel is spent. *)
Inductive ending :=
| Ended
| OpenRaised (path : string)
| Suspended
| Unfinished.

(** [can_open path] tells whether [open(path, mode="wt")] goes through
    (it raises, for one, when the directory [out] is missing).
    [written] is the list of the files written so far, each with the
    document it was given; it is kept also when the loop does not come
    to its end. *)
Fixpoint scrape_categories (can_open : string → bool) (net : network)
    (additional_languages : languages)
    (schedule : list string → list string) (pages fuel : nat)
    (categories : list category)
    (written : list (string * list (dict * bool * Z * gmap string Z)))
    (st : state)
    : ending * state * list (string * list (dict * bool * Z * gmap string Z)) :=
  match categories with
  | [] => (Ended, st, written)
  | c :: categories =>
      match fetch_all_items net c additional_languages schedule pages fuel st with
      | (Returned recipes, st) =>
          let path := "out/" +:+ label c +:+ ".json" in
          if can_open path then
            scrape_categories can_open net additional_languages schedule pages fuel
              categories (written ++ [(path, dump (heap st) recipes)]) st
          else (OpenRaised path, st, written)
      | (Blocked, st) => (Suspended, st, written)
      | (Pending, st) => (Unfinished, st, written)
      end
  end.

Definition scrape_items (can_open : string → bool) (net : network)
    (additional_languages : languages)
    (schedule : list string → list string) (pages fuel : nat) (st : state)
    : ending * state * list (string * list (dict * bool * Z * gmap string Z)) :=
  scrape_categories can_open net additional_languages schedule pages fuel
    CATEGORIES_keys [] st.

(** ** The command line (in [main]) *)

(** [s.split(sep, maxsplit)] for a separator of one character. *)
Fixpoint split (sep : ascii) (maxsplit : nat) (s : string) : list string :=
  match s with
  | EmptyString => [EmptyString]
  | String a s' =>
      if decide (a = sep) then
        match maxsplit with
        | O => [s]
        | S maxsplit => EmptyString :: split sep maxsplit s'
        end
      else
        match split sep maxsplit s' with
        | part :: parts => String a part :: parts
        | [] => [String a EmptyString]
        end
  end.

(** [lang, path = f.split("=", 2)]: the unpacking raises unless the
    split gives exactly two parts. *)
Definition lang_and_path (f : string) : option (string * string) :=
  match split "="%char 2 f with
  | [lang; path] => Some (lang, path)
  | _ => None
  end.

(** Lines 170 to 176 of [main].  [disk path] is what [json.load] reads
    from the file at [path], [None] when [open] or [json.load] raises;
    the result is [None] when an exception ends the program. *)
Fixpoint load_lang_files (disk : string → option dict) (lang_file : list string)
    (additional_languages : languages) (st : state) : option (languages * state) :=
  match lang_file with
  | [] => Some (additional_languages, st)
  | f :: lang_file =>
      '(lang, path) ← lang_and_path f;
      names ← disk path;
      match alloc names st with
      | (Returned l, st) =>
          load_lang_files disk lang_file (dict_set lang l additional_languages) st
      | _ => None
      end
  end.


(** ** A small catalogue to run the code on *)

Module Demo.

Definition attr (n v p v_hq p_hq : Z) : attribute :=
  {| id := n; value := v; percent := p; value_hq := v_hq; percent_hq := p_hq |}.

Definition apple : payload :=
  {| name_en := "Apple"; name_fr := "Pomme"; name_de := "Apfel"; name_ja := "Ringo";
     level_item := 10;
     attributes_params := [attr 70 5 3 8 4; attr 11 20 2 25 3] |}.

Definition banana : payload :=
  {| name_en := "Banana"; name_fr := "Banane"; name_de := "Banane"; name_ja := "Banana";
     level_item := 10;
     attributes_params := [attr 71 7 1 9 2] |}.

Definition cider : payload :=
  {| name_en := "Cider"; name_fr := "Cidre"; name_de := "Apfelwein"; name_ja := "Saida";
     level_item := 30;
     attributes_params := [] |}.

(** Two entries for attribute 70. *)
Definition stew : payload :=
  {| name_en := "Stew"; name_fr := "Ragout"; name_de := "Eintopf"; name_ja := "Shichu";
     level_item := 5;
     attributes_params := [attr 70 1 1 2 2; attr 70 6 3 9 4] |}.

(** Food has two listing pages; the first request for page 1 fails.
    The detail page of the apple fails twice. *)
Definition net : network :=
  {| search := λ c page k,
       if decide (c = 46 ∧ page = 1) then
         match k with
         | O => GetRaised
         | _ => Loaded {| items_results := [ {| url_api := "/item/apple" |};
                                             {| url_api := "/item/banana" |} ];
                          items_paging_total := 2 |}
         end
       else if decide (c = 46 ∧ page = 2) then
         Loaded {| items_results := [ {| url_api := "/item/cider" |} ];
                   items_paging_total := 2 |}
       else Loaded {| items_results := []; items_paging_total := 0 |};
     detail := λ url k,
       if decide (url = "/item/apple") then
         match k with
         | 0%nat => GetRaised
         | 1%nat => LoadsRaised
         | _ => Loaded apple
         end
       else if decide (url = "/item/banana") then Loaded banana
       else if decide (url = "/item/cider") then Loaded cider
       else if decide (url = "/item/stew") then Loaded stew
       else LoadsRaised |}.

(** What the two listing pages of Food decode to. *)
Definition food_page (page : Z) : listing :=
  if decide (page = 1)
  then {| items_results := [ {| url_api := "/item/apple" |};
                             {| url_api := "/item/banana" |} ];
          items_paging_total := 2 |}
  else {| items_results := [ {| url_api := "/item/cider" |} ];
          items_paging_total := 2 |}.

(** A listing whose every page says there is one more. *)
Definition endless : network :=
  {| search := λ _ page _,
       Loaded {| items_results := []; items_paging_total := page + 1 |};
     detail := λ _ _, GetRaised |}.

(** An endpoint that is down for good. *)
Definition dead : network :=
  {| search := λ _ _ _, GetRaised; detail := λ _ _, GetRaised |}.

Definition ja : dict := {[ "Apple" := "ringo"; "Cider" := "" ]}.

Definition init : state := {| sem := 4; heap := ∅ |}.

(** Two files on disk. *)
Definition disk (path : string) : option dict :=
  if decide (path = "ja.json") then Some ja
  else if decide (path = "old.json") then Some {[ "Apple" := "ringo (old)" ]}
  else None.

(** The state once [main] has loaded [ja] as the table for ["ja"], and
    the table it passes on. *)
Definition loaded : state := {| sem := 4; heap := {[ 1%positive := ja ]} |}.

Definition langs : languages := [("ja", 1%positive)].

(** The same with a table for ["en"] itself. *)
Definition en : dict := {[ "Apple" := "Zebra" ]}.

Definition loaded_en : state := {| sem := 4; heap := {[ 1%positive := en ]} |}.

Definition langs_en : languages := [("en", 1%positive)].

(** Capacity 1: the only task has fetched the banana at its first
    attempt. *)
Definition served : system :=
  {| permits := 1;
     tasks := [ {| work := DetailPage "/item/banana"; at_pc := Finished;
                   attempt := 0 |} ] |}.

(** Capacity 1: a listing task is inside the protected block, a detail
    task waits for the permit. *)
Definition busy : system :=
  {| permits := 0;
     tasks := [ {| work := ListingPage Food 1; at_pc := Holding; attempt := 0 |};
                {| work := DetailPage "/item/apple"; at_pc := Waiting; attempt := 0 |} ] |}.

End Demo.

(** ** Vocabulary of the statements *)

(** The first attempt that does not raise is attempt [k], and it
    decodes to [data]. *)
Definition first_loaded {D} (attempts : nat → response D) (k : nat) (data : D) : Prop :=
  (∀ j, (j < k)%nat → failed (attempts j) = true) ∧ attempts k = Loaded data.

(** Every attempt raises. *)
Definition never_loaded {D} (attempts : nat → response D) : Prop :=
  ∀ k, failed (attempts k) = true.

(** The target of the task never answers. *)
Definition dead_job (net : network) (w : job) : Prop :=
  match w with
  | ListingPage c page => never_loaded (search net (CATEGORIES c) page)
  | DetailPage url => never_loaded (detail net url)
  end.

Definition one_if (b : bool) : Z := if b then 1 else 0.

(** The attribute ids the scan looks for, each with the prefix of the
    keys it stores under. *)
Definition ATTRIBUTES : list (Z * string) :=
  [(70, "craftsmanship"); (71, "control"); (11, "cp")].

Definition stat_key (stat : string) (pct : bool) : string :=
  stat +:+ (if pct then "_percent" else "_value").

(** The field of the attribute entry that goes under [stat_key _ pct] in
    the record whose [hq] is [quality]. *)
Definition source_field (quality pct : bool) (attr : attribute) : Z :=
  match quality, pct with
  | false, false => value attr
  | false, true => percent attr
  | true, false => value_hq attr
  | true, true => percent_hq attr
  end.

(** The first half of C5 read for every entry that carries the id:
    each such entry is what both records hold. *)
Definition stats_copy_every_entry : Prop :=
  ∀ net url fuel st data counter log food food_hq st',
    fetch_page net url fuel (sem st) = (Returned data, counter, log) →
    fetch_item net url fuel st = (Returned [food; food_hq], st') →
    ∀ n stat pct attr,
      (n, stat) ∈ ATTRIBUTES → attr ∈ attributes_params data → id attr = n →
      stats food !! stat_key stat pct = Some (source_field false pct attr)
      ∧ stats food_hq !! stat_key stat pct = Some (source_field true pct attr).

(** [f] is the record of quality [quality] made from [data], with its
    dictionary of names as [fetch_item] filled it. *)
Definition record_of (h : store) (data : payload) (quality : bool) (f : item) : Prop :=
  hq f = quality ∧ ilvl f = level_item data ∧ h !! name f = Some (names_of data).

(** C7 as it is worded: whenever the English name is a key of the
    table of a language, the name for that language is the value found
    under that key, and the English name otherwise.  The table is taken
    as it should be: one entry per language, none for ["en"], all of
    its dictionaries loaded before the harvest. *)
Definition override_whenever_present : Prop :=
  ∀ net c (langs : languages) schedule pages fuel st out st',
    fetch_all_items net c langs schedule pages fuel st = (Returned out, st') →
    NoDup langs.*1 → "en" ∉ langs.*1 →
    (∀ lang l, (lang, l) ∈ langs → l ∈ dom (heap st)) →
    ∀ f lang l e,
      f ∈ out → (lang, l) ∈ langs →
      deref (heap st') (name f) !! "en" = Some e →
      deref (heap st') (name f) !! lang
      = Some (default e (deref (heap st) l !! e)).

(** The record of the pair whose [hq] is [quality]. *)
Definition side (quality : bool) (p : item * item) : item :=
  if quality then p.2 else p.1.

(** What every step of the event loop keeps: the permits left and the
    permits held add up to the capacity, and the counter is never
    negative. *)
Definition balanced (n : Z) (σ : system) : Prop :=
  0 ≤ permits σ ∧ permits σ + in_flight σ = n.

(** The computation leaves the counter of the semaphore as it was,
    whatever its status. *)
Definition keeps_counter {A} (m : M A) : Prop :=
  ∀ st, sem (m st).2 = sem st.

(** What the task for [url] ends up with, when it gets there within
    [fuel] attempts. *)
Definition answer (net : network) (fuel : nat) (url : string) : option payload :=
  match fetch_page net url fuel 1 with
  | (Returned data, _, _) => Some data
  | _ => None
  end.

(** The attribute keys the scan leaves in the record of quality
    [quality]. *)
Definition stats_of (data : payload) (quality : bool) : gmap string Z :=
  stats (side quality
           (foldl scan_attribute
              ({| name := 1%positive; hq := false; ilvl := 0; stats := ∅ |},
               {| name := 1%positive; hq := true; ilvl := 0; stats := ∅ |})
              (attributes_params data))).

(** The two records of a payload as [dump] shows them right after the
    harvest. *)
Definition harvest_entry (data : payload) (quality : bool)
    : dict * bool * Z * gmap string Z :=
  (names_of data, quality, level_item data, stats_of data quality).

Definition harvest_entries (net : network) (fuel : nat) (url : string)
    : list (dict * bool * Z * gmap string Z) :=
  match answer net fuel url with
  | Some data => [harvest_entry data false; harvest_entry data true]
  | None => []
  end.

(** The sort key of a dumped record. *)
Definition entry_key (e : dict * bool * Z * gmap string Z) : Z * string * bool :=
  let '(names, quality, level, _) := e in
  (level, default "" (names !! "en"), quality).

(** The override table by value: each language with its mapping. *)
Definition table_of (h : store) (langs : languages) : list (string * dict) :=
  (λ entry : string * positive, (entry.1, deref h entry.2)) <$> langs.

(** What the loop over the languages makes of a dumped record. *)
Definition localize_entry (table : list (string * dict))
    (e : dict * bool * Z * gmap string Z) : dict * bool * Z * gmap string Z :=
  let '(names, quality, level, sts) := e in
  let english_name := default "" (names !! "en") in
  (list_to_map ((λ entry : string * dict,
                   (entry.1, py_or (entry.2 !! english_name) english_name))
                  <$> table) ∪ names,
   quality, level, sts).

(** The loop over the languages on one dictionary of names, language
    by language in the order of the table: the English name is read
    anew for each language, from the dictionary as it then stands. *)
Definition assign_names (table : list (string * dict)) (names : dict) : dict :=
  foldl (λ (names : dict) (entry : string * dict),
           let english_name := default "" (names !! "en") in
           <[entry.1 := py_or (entry.2 !! english_name) english_name]> names)
        names table.

Definition assign_entry (table : list (string * dict))
    (e : dict * bool * Z * gmap string Z) : dict * bool * Z * gmap string Z :=
  let '(names, quality, level, sts) := e in
  (assign_names table names, quality, level, sts).

(** No two different payloads among the answers have the same level
    and the same English name. *)
Definition keys_tell_apart (net : network) (fuel : nat) (urls : list string) : Prop :=
  ∀ url url' data data',
    url ∈ urls → url' ∈ urls →
    answer net fuel url = Some data → answer net fuel url' = Some data' →
    level_item data = level_item data' → name_en data = name_en data' →
    data = data'.

(** The character occurs in the string. *)
Fixpoint occurs (a : ascii) (s : string) : bool :=
  match s with
  | EmptyString => false
  | String b s => bool_decide (b = a) || occurs a s
  end.


(** The first attempt of the task's job that does not raise is attempt
    [k]. *)
Definition job_first_loaded (net : network) (w : job) (k : nat) : Prop :=
  match w with
  | ListingPage c page => ∃ data, first_loaded (search net (CATEGORIES c) page) k data
  | DetailPage url => ∃ data, first_loaded (detail net url) k data
  end.

(** Every attempt of the job before attempt [k] raised. *)
Definition job_raised_before (net : network) (w : job) (k : nat) : Prop :=
  match w with
  | ListingPage c page =>
      ∀ j, (j < k)%nat → failed (search net (CATEGORIES c) page j) = true
  | DetailPage url => ∀ j, (j < k)%nat → failed (detail net url j) = true
  end.

(** The key (level, English name, hq) with components [ia], [na], [qa]
    is not below the key with components [ib], [nb], [qb]: the first
    component that differs is the greater in the first key, [true]
    counting above [false]. *)
Definition not_below (ia : Z) (na : string) (qa : bool)
    (ib : Z) (nb : string) (qb : bool) : Prop :=
  ib < ia
  ∨ ia = ib ∧ (String.ltb nb na = true ∨ na = nb ∧ (qa = true ∨ qb = false)).

(** C3 as it is worded: in the list that is returned, read with the
    names the records end up with, the key of a record is never below
    the key of the record after it, whatever the override table. *)
Definition output_sorted_by_final_names : Prop :=
  ∀ net c (langs : languages) schedule pages fuel st out st',
    fetch_all_items net c langs schedule pages fuel st = (Returned out, st') →
    NoDup langs.*1 →
    (∀ lang l, (lang, l) ∈ langs → l ∈ dom (heap st)) →
    ∀ i a b ea eb,
      out !! i = Some a → out !! S i = Some b →
      deref (heap st') (name a) !! "en" = Some ea →
      deref (heap st') (name b) !! "en" = Some eb →
      not_below (ilvl a) ea (hq a) (ilvl b) eb (hq b).

(** * Properties *)

(** ** The limiter *)

Lemma acquire_Some counter held :
  Limiter.acquire counter = Some held ↔ 0 < counter ∧ held = counter - 1.
Proof.
  unfold Limiter.acquire. case_decide; split.
  - intros [= <-]. done.
  - intros [_ ->]. done.
  - done.
  - intros [? _]. lia.
Qed.

Lemma acquire_None counter :
  Limiter.acquire counter = None ↔ counter ≤ 0.
Proof. unfold Limiter.acquire. case_decide; split; (done || lia). Qed.

Lemma release_acquire counter held :
  Limiter.acquire counter = Some held → Limiter.release held = counter.
Proof. intros [_ ->]%acquire_Some. unfold Limiter.release. lia. Qed.

(** ** The retry loop *)

Section retry_facts.
Context {D A : Type} (parse : D → A) (attempts : nat → response D).

Lemma protected_failed r : failed r = true → protected parse r = None.
Proof. by destruct r. Qed.

(** A round that raises hands the permit back and starts the next
    round at once. *)
Lemma retry_round_raises fuel k sem seen :
  0 < sem → failed (attempts k) = true →
  retry parse attempts (S fuel) k sem seen
  = retry parse attempts fuel (S k) sem (seen ++ [sem]).
Proof.
  intros Hsem Hk. simpl.
  destruct (Limiter.acquire sem) as [held|] eqn:Hacq.
  - rewrite (release_acquire _ _ Hacq), (protected_failed _ Hk). done.
  - apply acquire_None in Hacq. lia.
Qed.

Lemma retry_rounds_raise n fuel k sem seen :
  0 < sem →
  (∀ j, (k ≤ j < k + n)%nat → failed (attempts j) = true) →
  retry parse attempts (n + fuel) k sem seen
  = retry parse attempts fuel (k + n) sem (seen ++ replicate n sem).
Proof.
  intros Hsem. revert k seen.
  induction n as [|n IH]; intros k seen Hfail.
  - by rewrite Nat.add_0_r, app_nil_r.
  - change (S n + fuel)%nat with (S (n + fuel)).
    rewrite retry_round_raises by (done || (apply Hfail; lia)).
    rewrite IH by (intros j Hj; apply Hfail; lia).
    rewrite <- Nat.add_succ_comm. by rewrite <- app_assoc.
Qed.

Lemma retry_round_breaks fuel k sem seen data :
  0 < sem → attempts k = Loaded data →
  retry parse attempts (S fuel) k sem seen = (Returned (parse data), sem, seen).
Proof.
  intros Hsem Hk. simpl.
  destruct (Limiter.acquire sem) as [held|] eqn:Hacq.
  - by rewrite (release_acquire _ _ Hacq), Hk.
  - apply acquire_None in Hacq. lia.
Qed.

Lemma retry_first_loaded fuel k sem data :
  0 < sem → (k < fuel)%nat → first_loaded attempts k data →
  retry parse attempts fuel 0 sem [] = (Returned (parse data), sem, replicate k sem).
Proof.
  intros Hsem Hfuel [Hfail Hk].
  replace fuel with (k + S (fuel - S k))%nat by lia.
  rewrite retry_rounds_raise by (done || (intros j Hj; apply Hfail; lia)).
  by apply retry_round_breaks.
Qed.

Lemma retry_never_loaded fuel sem :
  0 < sem → never_loaded attempts →
  retry parse attempts fuel 0 sem [] = (Pending, sem, replicate fuel sem).
Proof.
  intros Hsem Hfail.
  rewrite <- (Nat.add_0_r fuel) at 1.
  rewrite retry_rounds_raise by (done || (intros j _; apply Hfail)).
  done.
Qed.

Lemma retry_never_returns fuel k sem seen data :
  never_loaded attempts →
  (retry parse attempts fuel k sem seen).1.1 ≠ Returned data.
Proof.
  intros Hfail. revert k sem seen.
  induction fuel as [|fuel IH]; intros k sem seen; simpl; [done|].
  destruct (Limiter.acquire sem); [|done].
  rewrite (protected_failed _ (Hfail k)). apply IH.
Qed.

End retry_facts.

(** C2: whenever an attempt raises, in the request or in the parsing of
    its answer, the permit of that attempt is given back (the counter
    seen by each [except:] handler is the counter the fetch started
    with), the next attempt starts from the [acquire] again, and this
    goes on for as many rounds [k] as it takes: the fetch returns what
    the first attempt that does not raise decoded, with the counter
    where it was.  Both copies of the loop behave so. *)
Theorem fetch_retries_until_first_success net fuel sem k :
  0 < sem → (k < fuel)%nat →
  (∀ url data,
      first_loaded (detail net url) k data →
      fetch_page net url fuel sem = (Returned data, sem, replicate k sem))
  ∧ (∀ c page data,
      first_loaded (search net (CATEGORIES c) page) k data →
      fetch_item_links_page net c page fuel sem
      = (Returned (parse_item_links_page data), sem, replicate k sem)).
Proof.
  intros Hsem Hk. split.
  - intros url data Hfirst. unfold fetch_page.
    by rewrite (retry_first_loaded _ _ fuel k sem data).
  - intros c page data Hfirst. unfold fetch_item_links_page.
    by rewrite (retry_first_loaded _ _ fuel k sem data).
Qed.

Lemma fetch_retries_until_first_success_witness :
  fetch_page Demo.net "/item/apple" 5 4 = (Returned Demo.apple, 4, [4; 4])
  ∧ fetch_item_links_page Demo.net Food 1 5 4
    = (Returned (["/item/apple"; "/item/banana"], 2), 4, [4]).
Proof.
  split.
  - apply (proj1 (fetch_retries_until_first_success Demo.net 5 4 2
                    ltac:(lia) ltac:(lia)) "/item/apple" Demo.apple).
    split; [intros [|[|j]] Hj; (reflexivity || lia) | reflexivity].
  - apply (proj2 (fetch_retries_until_first_success Demo.net 5 4 1
                    ltac:(lia) ltac:(lia)) Food 1
             {| items_results := [ {| url_api := "/item/apple" |};
                                   {| url_api := "/item/banana" |} ];
                items_paging_total := 2 |}).
    split; [intros [|j] Hj; (reflexivity || lia) | reflexivity].
Defined.

(** C8: when every attempt at a target raises, neither loop ever
    returns, whatever the fuel, and nothing else can come out of it:
    with a permit to be had, a run of [fuel] rounds has gone through
    the handler [fuel] times and is still looping. *)
Theorem dead_endpoint_loops_forever net :
  (∀ url, never_loaded (detail net url) →
     ∀ fuel sem,
       (∀ data, (fetch_page net url fuel sem).1.1 ≠ Returned data)
       ∧ (0 < sem →
          fetch_page net url fuel sem = (Pending, sem, replicate fuel sem)))
  ∧ (∀ c page, never_loaded (search net (CATEGORIES c) page) →
     ∀ fuel sem,
       (∀ data, (fetch_item_links_page net c page fuel sem).1.1 ≠ Returned data)
       ∧ (0 < sem →
          fetch_item_links_page net c page fuel sem
          = (Pending, sem, replicate fuel sem))).
Proof.
  split.
  - intros url Hdead fuel sem. split.
    + intros data. by apply retry_never_returns.
    + intros Hsem. by apply retry_never_loaded.
  - intros c page Hdead fuel sem. split.
    + intros data. by apply retry_never_returns.
    + intros Hsem. by apply retry_never_loaded.
Qed.

Lemma dead_endpoint_loops_forever_witness :
  fetch_page Demo.dead "/item/apple" 3 4 = (Pending, 4, [4; 4; 4]).
Proof.
  apply (proj1 (dead_endpoint_loops_forever Demo.dead) "/item/apple"
           (λ k, eq_refl) 3%nat 4).
  lia.
Defined.

(** ** The interleaved tasks *)

Lemma in_flight_app σ t :
  in_flight {| permits := permits σ; tasks := tasks σ ++ [t] |}
  = in_flight σ + one_if (holding t).
Proof.
  unfold in_flight. simpl. rewrite filter_app, length_app.
  rewrite filter_cons, filter_nil.
  destruct (holding t); simpl; lia.
Qed.

Lemma in_flight_insert (l : list task) i t t' counter counter' :
  l !! i = Some t →
  in_flight {| permits := counter'; tasks := <[i := t']> l |} + one_if (holding t)
  = in_flight {| permits := counter; tasks := l |} + one_if (holding t').
Proof.
  unfold in_flight. simpl. revert i.
  induction l as [|x l IH]; intros i Hi; [done|].
  destruct i as [|i]; simpl in *.
  - injection Hi as ->. rewrite !filter_cons.
    destruct (holding t), (holding t'); simpl; lia.
  - specialize (IH i Hi). rewrite !filter_cons.
    destruct (decide (holding x = true)); simpl length; lia.
Qed.

Lemma start_balanced n σ : start n = Some σ → balanced n σ.
Proof.
  unfold start, Limiter.Semaphore. case_decide; [done|].
  intros [= <-]. split; simpl; [lia|]. unfold in_flight. simpl. lia.
Qed.

Lemma step_balanced net n σ σ' :
  step net σ σ' → balanced n σ → balanced n σ'.
Proof.
  intros Hstep [Hpos Hsum]. destruct σ as [counter l].
  inversion Hstep as [? w | ? i t held Hi Hpc Hacq
                      | ? i t Hi Hpc Hr | ? i t Hi Hpc Hr]; subst; simpl in *.
  - split; [done|]. rewrite (in_flight_app {| permits := counter; tasks := l |}).
    simpl. lia.
  - apply acquire_Some in Hacq as [Hlt ->].
    pose proof (in_flight_insert l i t (goes_to Holding t) counter (counter - 1) Hi) as Hc.
    unfold holding in Hc at 1 2. rewrite Hpc in Hc. simpl in Hc.
    split; simpl; lia.
  - pose proof (in_flight_insert l i t (goes_to Finished t) counter
                  (Limiter.release counter) Hi) as Hc.
    unfold holding in Hc at 1 2. rewrite Hpc in Hc. simpl in Hc.
    unfold Limiter.release in *. split; simpl; lia.
  - pose proof (in_flight_insert l i t (again t) counter
                  (Limiter.release counter) Hi) as Hc.
    unfold holding in Hc at 1 2. rewrite Hpc in Hc. simpl in Hc.
    unfold Limiter.release in *. split; simpl; lia.
Qed.

Lemma run_balanced net n σ σ' :
  rtc (step net) σ σ' → balanced n σ → balanced n σ'.
Proof. induction 1; eauto using step_balanced. Qed.

(** C1: in a run started with capacity [n], whatever listing-page and
    detail-page tasks are created and however the event loop interleaves
    them, the number of tasks inside the protected block never exceeds
    [n]; the two kinds of task draw on the same counter. *)
Theorem at_most_n_in_flight net n σ0 σ :
  start n = Some σ0 → rtc (step net) σ0 σ → in_flight σ ≤ n.
Proof.
  intros Hstart Hrun.
  destruct (run_balanced net n σ0 σ Hrun (start_balanced n σ0 Hstart)). lia.
Qed.

Lemma at_most_n_in_flight_witness : in_flight Demo.busy ≤ 1.
Proof.
  apply (at_most_n_in_flight Demo.net 1 {| permits := 1; tasks := [] |});
    [reflexivity|].
  eapply rtc_l; [apply (step_spawn _ _ (ListingPage Food 1))|].
  eapply rtc_l; [apply (step_spawn _ _ (DetailPage "/item/apple"))|].
  eapply rtc_l; [|apply rtc_refl].
  exact (step_enter Demo.net
           {| permits := 1;
              tasks := [ {| work := ListingPage Food 1; at_pc := Waiting; attempt := 0 |};
                         {| work := DetailPage "/item/apple"; at_pc := Waiting;
                            attempt := 0 |} ] |}
           0%nat {| work := ListingPage Food 1; at_pc := Waiting; attempt := 0 |} 0
           eq_refl eq_refl eq_refl).
Defined.

(** On the event loop too, a task whose target never answers is never
    finished: it is waiting for a permit or inside the block. *)
Lemma dead_task_never_finishes net n σ0 σ :
  start n = Some σ0 → rtc (step net) σ0 σ →
  ∀ t, t ∈ tasks σ → dead_job net (work t) → at_pc t ≠ Finished.
Proof.
  intros Hstart Hrun.
  assert (Forall (λ t, dead_job net (work t) → at_pc t ≠ Finished) (tasks σ))
    as Hall; [|by rewrite Forall_forall in Hall].
  assert (Forall (λ t, dead_job net (work t) → at_pc t ≠ Finished) (tasks σ0))
    as Hinit.
  { unfold start in Hstart. destruct (Limiter.Semaphore n); [|done].
    injection Hstart as <-. constructor. }
  clear Hstart. induction Hrun as [|σ1 σ2 σ3 Hstep _ IH]; [done|].
  apply IH. clear IH.
  inversion Hstep as [? w | ? i t held Hi Hpc Hacq
                      | ? i t Hi Hpc Hr | ? i t Hi Hpc Hr]; subst; simpl.
  - apply Forall_app. split; [done|]. by repeat constructor.
  - by apply Forall_insert.
  - apply Forall_insert; [done|]. simpl. intros Hdead.
    unfold raises in Hr. destruct (work t); simpl in Hdead;
      rewrite Hdead in Hr; done.
  - by apply Forall_insert.
Qed.

(** ** The monad *)

Lemma bind_returned {A B} (m : M A) (k : A → M B) st a st' :
  m st = (Returned a, st') → (m ≫= k) st = k a st'.
Proof. intros H. unfold mbind, M_bind. by rewrite H. Qed.

Lemma bind_inv {A B} (m : M A) (k : A → M B) st b st' :
  (m ≫= k) st = (Returned b, st') →
  ∃ a st1, m st = (Returned a, st1) ∧ k a st1 = (Returned b, st').
Proof.
  unfold mbind, M_bind. destruct (m st) as [[a| |] st1]; [eauto|done..].
Qed.

Lemma await_returned {A} (r : Z → run A) st a counter log :
  r (sem st) = (Returned a, counter, log) →
  await r st = (Returned a, {| sem := counter; heap := heap st |}).
Proof. intros H. unfold await. by rewrite H. Qed.

Lemma await_inv {A} (r : Z → run A) st a st' :
  await r st = (Returned a, st') →
  ∃ log, r (sem st) = (Returned a, sem st', log) ∧ heap st' = heap st.
Proof.
  unfold await. destruct (r (sem st)) as [[s counter] log].
  intros [= -> <-]. eauto.
Qed.

(** ** The enumerator *)

Section enumerator.
Context (net : network) (c : category) (fuel : nat) (doc : Z → listing).

(** One round of the [while True] of [fetch_item_urls]. *)
Lemma enumerate_page st pages page urls k data :
  0 < sem st → (k < fuel)%nat →
  first_loaded (search net (CATEGORIES c) page) k data →
  fetch_item_urls_from net c (S pages) fuel page urls st
  = if decide (page < items_paging_total data)
    then fetch_item_urls_from net c pages fuel (page + 1)
           (urls ++ map url_api (items_results data)) st
    else (Returned (urls ++ map url_api (items_results data)), st).
Proof.
  intros Hsem Hk Hfirst. simpl.
  pose proof (retry_first_loaded parse_item_links_page _ fuel k (sem st) data
                Hsem Hk Hfirst) as Hfetch.
  erewrite bind_returned by (eapply await_returned, Hfetch).
  destruct st as [counter h]. simpl. by case_decide.
Qed.

Lemma enumerate_pages st p m :
  0 < sem st →
  ∀ page urls pages,
    p = page + Z.of_nat m →
    (∀ i, page ≤ i ≤ p →
       ∃ k, (k < fuel)%nat ∧ first_loaded (search net (CATEGORIES c) i) k (doc i)) →
    (∀ i, page ≤ i < p → i < items_paging_total (doc i)) →
    items_paging_total (doc p) ≤ p →
    ((S m ≤ pages)%nat →
       fetch_item_urls_from net c pages fuel page urls st
       = (Returned (urls ++ concat ((λ i, map url_api (items_results (doc i)))
                                     <$> seqZ page (Z.of_nat (S m)))), st))
    ∧ ((pages ≤ m)%nat →
       fetch_item_urls_from net c pages fuel page urls st = (Pending, st)).
Proof.
  intros Hsem. induction m as [|m IH]; intros page urls pages Hp Hdoc Hmore Hstop.
  - assert (p = page) as -> by lia. split.
    + intros Hpages. destruct pages as [|pages]; [lia|].
      destruct (Hdoc page ltac:(lia)) as (k & Hk & Hfirst).
      rewrite (enumerate_page st pages page urls k _ Hsem Hk Hfirst).
      rewrite decide_False by lia. simpl. by rewrite app_nil_r.
    + intros Hpages. by assert (pages = 0%nat) as -> by lia.
  - destruct pages as [|pages]; [split; [lia|done]|].
    destruct (Hdoc page ltac:(lia)) as (k & Hk & Hfirst).
    rewrite (enumerate_page st pages page urls k _ Hsem Hk Hfirst).
    rewrite decide_True by (apply Hmore; lia).
    destruct (IH (page + 1) (urls ++ map url_api (items_results (doc page))) pages)
      as [IH1 IH2].
    { lia. }
    { intros i Hi. apply Hdoc. lia. }
    { intros i Hi. apply Hmore. lia. }
    { done. }
    split; intros Hpages.
    + rewrite IH1 by lia. do 2 f_equal.
      rewrite (seqZ_cons page (Z.of_nat (S (S m)))) by lia.
      rewrite fmap_cons. simpl concat. rewrite <- app_assoc.
      replace (Z.pred (Z.of_nat (S (S m)))) with (Z.of_nat (S m)) by lia.
      done.
    + apply IH2. lia.
Qed.

End enumerator.

Lemma length_concat_sum {A} (ls : list (list A)) :
  length (concat ls) = sum_list (length <$> ls).
Proof.
  induction ls as [|l ls IH]; [done|].
  simpl. rewrite length_app. by rewrite IH.
Qed.

(** C6: the enumerator asks for page 1, 2, 3, ... one after the other,
    appends the urls of each page before it compares, and stops at the
    first page [p] whose own total is not above [p].  Given enough
    rounds it returns the urls of pages 1 to [p] in page order, as many
    as the pages hold together; given fewer than [p] rounds it has not
    stopped.  [doc i] is what page [i] decodes to once a request for
    it goes through. *)
Theorem enumerator_stops_at_reported_total net c fuel (doc : Z → listing) p pages st :
  0 < sem st → 1 ≤ p →
  (∀ i, 1 ≤ i ≤ p →
     ∃ k, (k < fuel)%nat ∧ first_loaded (search net (CATEGORIES c) i) k (doc i)) →
  (∀ i, 1 ≤ i < p → i < items_paging_total (doc i)) →
  items_paging_total (doc p) ≤ p →
  let page_urls i := (parse_item_links_page (doc i)).1 in
  let urls := concat (page_urls <$> seqZ 1 p) in
  ((Z.to_nat p ≤ pages)%nat →
     fetch_item_urls net c pages fuel st = (Returned urls, st))
  ∧ ((pages < Z.to_nat p)%nat →
     fetch_item_urls net c pages fuel st = (Pending, st))
  ∧ length urls = sum_list ((λ i, length (page_urls i)) <$> seqZ 1 p).
Proof.
  intros Hsem Hp Hdoc Hmore Hstop page_urls urls.
  destruct (enumerate_pages net c fuel doc st p (Z.to_nat (p - 1)) Hsem 1 [] pages)
    as [H1 H2]; [lia|done..|].
  replace (Z.of_nat (S (Z.to_nat (p - 1)))) with p in H1 by lia.
  split_and!.
  - intros Hpages. unfold fetch_item_urls. rewrite H1 by lia. done.
  - intros Hpages. unfold fetch_item_urls. apply H2. lia.
  - unfold urls. rewrite length_concat_sum. by rewrite <- list_fmap_compose.
Qed.

Lemma enumerator_stops_at_reported_total_witness :
  fetch_item_urls Demo.net Food 2 5 Demo.init
  = (Returned ["/item/apple"; "/item/banana"; "/item/cider"], Demo.init)
  ∧ fetch_item_urls Demo.net Food 1 5 Demo.init = (Pending, Demo.init).
Proof.
  assert (∀ pages,
    ((Z.to_nat 2 ≤ pages)%nat →
       fetch_item_urls Demo.net Food pages 5 Demo.init
       = (Returned ["/item/apple"; "/item/banana"; "/item/cider"], Demo.init))
    ∧ ((pages < Z.to_nat 2)%nat →
       fetch_item_urls Demo.net Food pages 5 Demo.init = (Pending, Demo.init)))
    as H.
  { intros pages.
    destruct (enumerator_stops_at_reported_total Demo.net Food 5
                Demo.food_page 2 pages Demo.init) as (H1 & H2 & _).
    - simpl. lia.
    - lia.
    - intros i Hi. destruct (decide (i = 1)) as [->|Hne].
      + exists 1%nat. split; [lia|].
        split; [intros [|j] Hj; (reflexivity || lia) | reflexivity].
      + assert (i = 2) as -> by lia. exists 0%nat. split; [lia|].
        split; [intros j Hj; lia | reflexivity].
    - intros i Hi. assert (i = 1) as -> by lia. simpl. lia.
    - simpl. lia.
    - split; [exact H1 | exact H2]. }
  split.
  - apply (H 2%nat). simpl. lia.
  - apply (H 1%nat). simpl. lia.
Defined.

(** ** The records of one item *)

Lemma alloc_returned d st :
  alloc d st = (Returned (fresh (dom (heap st))),
                {| sem := sem st; heap := <[fresh (dom (heap st)) := d]> (heap st) |}).
Proof. done. Qed.

(** The scan only ever touches [stats]. *)
Lemma record_attribute_frame n stat attr p quality :
  name (side quality (record_attribute n stat attr p)) = name (side quality p)
  ∧ hq (side quality (record_attribute n stat attr p)) = hq (side quality p)
  ∧ ilvl (side quality (record_attribute n stat attr p)) = ilvl (side quality p).
Proof.
  unfold record_attribute. case_decide; [|done].
  destruct p as [food food_hq]. by destruct quality.
Qed.

Lemma scan_attribute_frame p attr quality :
  name (side quality (scan_attribute p attr)) = name (side quality p)
  ∧ hq (side quality (scan_attribute p attr)) = hq (side quality p)
  ∧ ilvl (side quality (scan_attribute p attr)) = ilvl (side quality p).
Proof.
  unfold scan_attribute.
  destruct (record_attribute_frame 11 "cp" attr
              (record_attribute 71 "control" attr
                 (record_attribute 70 "craftsmanship" attr p)) quality)
    as (-> & -> & ->).
  destruct (record_attribute_frame 71 "control" attr
              (record_attribute 70 "craftsmanship" attr p) quality)
    as (-> & -> & ->).
  apply record_attribute_frame.
Qed.

Lemma scan_frame attrs p quality :
  name (side quality (foldl scan_attribute p attrs)) = name (side quality p)
  ∧ hq (side quality (foldl scan_attribute p attrs)) = hq (side quality p)
  ∧ ilvl (side quality (foldl scan_attribute p attrs)) = ilvl (side quality p).
Proof.
  revert p. induction attrs as [|attr attrs IH]; intros p; [done|].
  simpl. destruct (IH (scan_attribute p attr)) as (-> & -> & ->).
  apply scan_attribute_frame.
Qed.

(** What one entry does to one key of one record. *)
Lemma scan_attribute_lookup n stat pct quality p attr :
  (n, stat) ∈ ATTRIBUTES →
  stats (side quality (scan_attribute p attr)) !! stat_key stat pct
  = if decide (id attr = n) then Some (source_field quality pct attr)
    else stats (side quality p) !! stat_key stat pct.
Proof.
  intros Hin. destruct p as [food food_hq].
  unfold ATTRIBUTES in Hin. rewrite !elem_of_cons, elem_of_nil in Hin.
  unfold scan_attribute, record_attribute.
  destruct Hin as [[= -> ->]|[[= -> ->]|[[= -> ->]|[]]]];
    repeat case_decide; try lia;
    destruct quality, pct; simpl; by simplify_map_eq.
Qed.

(** Over the whole list the last entry with the id decides. *)
Lemma scan_lookup n stat pct quality attrs p :
  (n, stat) ∈ ATTRIBUTES →
  stats (side quality (foldl scan_attribute p attrs)) !! stat_key stat pct
  = match last (filter (λ attr, id attr = n) attrs) with
    | Some attr => Some (source_field quality pct attr)
    | None => stats (side quality p) !! stat_key stat pct
    end.
Proof.
  intros Hin. revert p.
  induction attrs as [|attr attrs IH]; intros p; [done|].
  simpl. rewrite IH, filter_cons.
  rewrite (scan_attribute_lookup n stat pct quality p attr Hin).
  case_decide; [|done].
  rewrite last_cons. by destruct (last (filter _ attrs)).
Qed.

Lemma make_records_returned data st :
  let l := fresh (dom (heap st)) in
  let h := <[l := names_of data]> (heap st) in
  let l_hq := fresh (dom h) in
  let p := foldl scan_attribute
             ({| name := l; hq := false; ilvl := level_item data; stats := ∅ |},
              {| name := l_hq; hq := true; ilvl := level_item data; stats := ∅ |})
             (attributes_params data) in
  make_records data st
  = (Returned [p.1; p.2],
     {| sem := sem st; heap := <[l_hq := names_of data]> h |}).
Proof.
  intros l h l_hq p. unfold make_records.
  rewrite (bind_returned _ _ _ _ _ (alloc_returned _ _)).
  rewrite (bind_returned _ _ _ _ _ (alloc_returned _ _)).
  change (foldl scan_attribute _ _) with p.
  by destruct p.
Qed.

Lemma fetch_item_returned net url fuel st data counter log :
  fetch_page net url fuel (sem st) = (Returned data, counter, log) →
  fetch_item net url fuel st = make_records data {| sem := counter; heap := heap st |}.
Proof.
  intros Hpage. unfold fetch_item.
  by rewrite (bind_returned _ _ _ _ _ (await_returned _ _ _ _ _ Hpage)).
Qed.

Lemma fresh_insert_ne (h : store) d :
  fresh (dom (<[fresh (dom h) := d]> h)) ≠ fresh (dom h).
Proof.
  intros Heq.
  apply (is_fresh (dom (<[fresh (dom h) := d]> h))).
  rewrite Heq at 1. rewrite dom_insert_L. set_solver.
Qed.

(** C4: from one payload [fetch_item] makes a list of exactly two
    records, the first with [hq] false and the second with [hq] true;
    both have the payload's level, and their [name] dictionaries are two
    objects with the same four names. *)
Theorem fetch_item_makes_a_pair net url fuel st data counter log :
  fetch_page net url fuel (sem st) = (Returned data, counter, log) →
  ∃ food food_hq st',
    fetch_item net url fuel st = (Returned [food; food_hq], st')
    ∧ hq food = false ∧ hq food_hq = true
    ∧ ilvl food = level_item data ∧ ilvl food_hq = level_item data
    ∧ heap st' !! name food = Some (names_of data)
    ∧ heap st' !! name food_hq = Some (names_of data)
    ∧ name food ≠ name food_hq.
Proof.
  intros Hpage. rewrite (fetch_item_returned _ _ _ _ _ _ _ Hpage).
  rewrite make_records_returned. simpl heap. simpl sem.
  set (l := fresh (dom (heap st))).
  set (h := <[l := names_of data]> (heap st)).
  set (l_hq := fresh (dom h)).
  set (p := foldl scan_attribute _ _).
  destruct (scan_frame (attributes_params data)
              ({| name := l; hq := false; ilvl := level_item data; stats := ∅ |},
               {| name := l_hq; hq := true; ilvl := level_item data; stats := ∅ |})
              false) as (Hn & Hq & Hi).
  destruct (scan_frame (attributes_params data)
              ({| name := l; hq := false; ilvl := level_item data; stats := ∅ |},
               {| name := l_hq; hq := true; ilvl := level_item data; stats := ∅ |})
              true) as (Hn' & Hq' & Hi').
  fold p in Hn, Hq, Hi, Hn', Hq', Hi'. simpl in Hn, Hq, Hi, Hn', Hq', Hi'.
  assert (l_hq ≠ l) as Hne by apply fresh_insert_ne.
  exists p.1, p.2, {| sem := counter; heap := <[l_hq := names_of data]> h |}.
  rewrite Hn, Hn', Hq, Hq', Hi, Hi'. simpl heap.
  split_and!; try done.
  - rewrite lookup_insert_ne by done. apply lookup_insert_eq.
  - apply lookup_insert_eq.
Qed.

Lemma fetch_item_makes_a_pair_witness :
  ∃ food food_hq st',
    fetch_item Demo.net "/item/banana" 1 Demo.init = (Returned [food; food_hq], st')
    ∧ hq food = false ∧ hq food_hq = true
    ∧ ilvl food = 10 ∧ ilvl food_hq = 10
    ∧ heap st' !! name food = Some (names_of Demo.banana)
    ∧ heap st' !! name food_hq = Some (names_of Demo.banana)
    ∧ name food ≠ name food_hq.
Proof.
  apply (fetch_item_makes_a_pair Demo.net "/item/banana" 1 Demo.init
           Demo.banana 4 []).
  reflexivity.
Defined.

Lemma last_filter_none {A} (P : A → Prop) `{!∀ x, Decision (P x)} (l : list A) :
  (∀ x, x ∈ l → ¬ P x) → last (filter P l) = None.
Proof.
  intros Hl. induction l as [|x l IH]; [done|].
  rewrite filter_cons, decide_False by (apply Hl; left).
  apply IH. intros y Hy. apply Hl. by right.
Qed.

Lemma last_filter_some {A} (P : A → Prop) `{!∀ x, Decision (P x)} (l1 l2 : list A) x :
  P x → (∀ y, y ∈ l2 → ¬ P y) → last (filter P (l1 ++ x :: l2)) = Some x.
Proof.
  intros Hx Hl2. rewrite filter_app, filter_cons, decide_True by done.
  assert (filter P l2 = []) as ->.
  { clear Hx. induction l2 as [|y l2 IH]; [done|].
    rewrite filter_cons, decide_False by (apply Hl2; left).
    apply IH. intros z Hz. apply Hl2. by right. }
  apply last_snoc.
Qed.

(** C5, as the code has it: for each of the ids 70, 71 and 11, when the
    attribute list has entries with that id, the [_value] and [_percent]
    fields of the [hq] false record are the [value] and [percent] of the
    last such entry and those of the [hq] true record its [value_hq] and
    [percent_hq]; when the list has no entry with that id, neither
    record has the two keys. *)
Theorem stats_copy_last_entry net url fuel st data counter log :
  fetch_page net url fuel (sem st) = (Returned data, counter, log) →
  ∃ food food_hq st',
    fetch_item net url fuel st = (Returned [food; food_hq], st')
    ∧ ∀ n stat pct, (n, stat) ∈ ATTRIBUTES →
        (∀ before attr after,
            attributes_params data = before ++ attr :: after →
            id attr = n → (∀ attr', attr' ∈ after → id attr' ≠ n) →
            stats food !! stat_key stat pct = Some (source_field false pct attr)
            ∧ stats food_hq !! stat_key stat pct = Some (source_field true pct attr))
        ∧ ((∀ attr, attr ∈ attributes_params data → id attr ≠ n) →
            stats food !! stat_key stat pct = None
            ∧ stats food_hq !! stat_key stat pct = None).
Proof.
  intros Hpage. rewrite (fetch_item_returned _ _ _ _ _ _ _ Hpage).
  rewrite make_records_returned. simpl heap. simpl sem.
  match goal with |- context [foldl scan_attribute ?q _] => set (p0 := q) end.
  set (p := foldl scan_attribute p0 _).
  eexists p.1, p.2, _. split; [done|].
  intros n stat pct Hin.
  pose proof (scan_lookup n stat pct false (attributes_params data) p0 Hin) as Hf.
  pose proof (scan_lookup n stat pct true (attributes_params data) p0 Hin) as Hf_hq.
  fold p in Hf, Hf_hq. simpl side in Hf, Hf_hq. split.
  - intros before attr after Hsplit Hid Hafter.
    rewrite Hsplit in Hf, Hf_hq.
    rewrite (last_filter_some (λ a, id a = n)) in Hf, Hf_hq by done. done.
  - intros Hnone.
    rewrite (last_filter_none (λ a, id a = n)) in Hf, Hf_hq by done. done.
Qed.

Lemma stats_copy_last_entry_witness :
  ∃ food food_hq st',
    fetch_item Demo.net "/item/stew" 1 Demo.init = (Returned [food; food_hq], st')
    ∧ stats food !! "craftsmanship_value" = Some 6
    ∧ stats food_hq !! "craftsmanship_percent" = Some 4
    ∧ stats food !! "cp_value" = None.
Proof.
  destruct (stats_copy_last_entry Demo.net "/item/stew" 1 Demo.init
              Demo.stew 4 [] eq_refl) as (food & food_hq & st' & Hret & Hstats).
  exists food, food_hq, st'. split; [exact Hret|].
  split_and!.
  - apply (proj1 (Hstats 70 "craftsmanship" false ltac:(repeat constructor))
             [Demo.attr 70 1 1 2 2] (Demo.attr 70 6 3 9 4) []);
      [reflexivity | reflexivity | by intros attr' ?%elem_of_nil].
  - apply (proj1 (Hstats 70 "craftsmanship" true ltac:(repeat constructor))
             [Demo.attr 70 1 1 2 2] (Demo.attr 70 6 3 9 4) []);
      [reflexivity | reflexivity | by intros attr' ?%elem_of_nil].
  - apply (proj2 (Hstats 11 "cp" false ltac:(repeat constructor))).
    intros attr Hattr. simpl in Hattr.
    rewrite !elem_of_cons, elem_of_nil in Hattr.
    destruct Hattr as [->|[->|[]]]; simpl; lia.
Defined.

(** C5 as it is worded, with "that entry" any entry with the id, fails
    on a list with two entries for 70: the records hold the second. *)
Lemma stats_copy_every_entry_fails : ¬ stats_copy_every_entry.
Proof.
  intros Hclaim.
  pose proof (fetch_item_returned Demo.net "/item/stew" 1 Demo.init
                Demo.stew 4 [] eq_refl) as Hret.
  rewrite make_records_returned in Hret.
  destruct (Hclaim Demo.net "/item/stew" 1%nat Demo.init Demo.stew 4 [] _ _ _
              eq_refl Hret 70 "craftsmanship" false
              (Demo.attr 70 1 1 2 2)) as [Hfood _].
  - repeat constructor.
  - repeat constructor.
  - reflexivity.
  - vm_compute in Hfood. discriminate Hfood.
Qed.

(** ** The harvest *)

Section retry_inversion.
Context {D A : Type} (parse : D → A) (attempts : nat → response D).

Lemma retry_inv fuel k sem seen a counter log :
  retry parse attempts fuel k sem seen = (Returned a, counter, log) →
  ∃ n data,
    (∀ j, (k ≤ j < k + n)%nat → failed (attempts j) = true)
    ∧ attempts (k + n)%nat = Loaded data ∧ a = parse data ∧ counter = sem.
Proof.
  revert k sem seen. induction fuel as [|fuel IH]; intros k sem seen; [done|].
  simpl. destruct (Limiter.acquire sem) as [held|] eqn:Hacq; [|done].
  rewrite (release_acquire _ _ Hacq).
  destruct (attempts k) as [| |data] eqn:Hk; simpl.
  - intros (n & data & Hfail & Hload & -> & ->)%IH.
    exists (S n), data. split_and!; try done.
    + intros j Hj. destruct (decide (j = k)) as [->|]; [by rewrite Hk|].
      apply Hfail. lia.
    + by rewrite <- Nat.add_succ_comm.
  - intros (n & data & Hfail & Hload & -> & ->)%IH.
    exists (S n), data. split_and!; try done.
    + intros j Hj. destruct (decide (j = k)) as [->|]; [by rewrite Hk|].
      apply Hfail. lia.
    + by rewrite <- Nat.add_succ_comm.
  - intros [= <- <- <-]. exists 0%nat, data. split_and!; try done.
    + intros j Hj. lia.
    + by rewrite Nat.add_0_r.
Qed.

End retry_inversion.

Lemma fetch_item_inv net url fuel st r st' :
  fetch_item net url fuel st = (Returned r, st') →
  ∃ k data, first_loaded (detail net url) k data
            ∧ make_records data st = (Returned r, st').
Proof.
  unfold fetch_item.
  intros (data & st1 & (log & Hpage & Hheap)%await_inv & Hmake)%bind_inv.
  unfold fetch_page in Hpage.
  apply retry_inv in Hpage as (n & data' & Hfail & Hload & -> & Hsem).
  exists n, data'. split.
  - split; [intros j Hj; apply Hfail; lia | done].
  - destruct st as [counter h], st1 as [counter1 h1]. simpl in *. by subst.
Qed.

Lemma fetch_items_from_spec net fuel completed :
  ∀ food st food' st',
    fetch_items_from net completed fuel food st = (Returned food', st') →
    sem st' = sem st ∧ heap st ⊆ heap st'
    ∧ ∃ new,
        food' = food ++ new
        ∧ length new = (2 * length completed)%nat
        ∧ NoDup (name <$> new)
        ∧ (∀ f, f ∈ new → name f ∉ dom (heap st))
        ∧ (∀ f, f ∈ new → ∃ data quality, record_of (heap st') data quality f)
        ∧ (∀ i url, completed !! i = Some url →
             ∃ k data f f_hq,
               first_loaded (detail net url) k data
               ∧ new !! (2 * i)%nat = Some f ∧ new !! (2 * i + 1)%nat = Some f_hq
               ∧ record_of (heap st') data false f
               ∧ record_of (heap st') data true f_hq).
Proof.
  induction completed as [|url completed IH]; intros food st food' st'.
  - intros [= <- <-]. split_and!; try done.
    exists []. rewrite app_nil_r. split_and!; try done.
    + constructor.
    + by intros f ?%elem_of_nil.
    + by intros f ?%elem_of_nil.
  - simpl.
    intros (r & st1 & (k & data & Hfirst & Hmake)%fetch_item_inv & Hrest)%bind_inv.
    rewrite make_records_returned in Hmake.
    set (l := fresh (dom (heap st))) in *.
    set (h := <[l := names_of data]> (heap st)) in *.
    set (l_hq := fresh (dom h)) in *.
    match type of Hmake with context [foldl scan_attribute ?q _] => set (p0 := q) in * end.
    set (p := foldl scan_attribute p0 _) in *.
    injection Hmake as <- <-.
    destruct (scan_frame (attributes_params data) p0 false) as (Hn & Hq & Hi).
    destruct (scan_frame (attributes_params data) p0 true) as (Hn' & Hq' & Hi').
    fold p in Hn, Hq, Hi, Hn', Hq', Hi'. simpl in Hn, Hq, Hi, Hn', Hq', Hi'.
    assert (l ∉ dom (heap st)) as Hl by apply is_fresh.
    assert (l_hq ∉ dom h) as Hl_hq by apply is_fresh.
    assert (dom h = {[l]} ∪ dom (heap st)) as Hdom by apply dom_insert_L.
    apply IH in Hrest
      as (Hsem & Hsub & new & -> & Hlen & Hnd & Hfresh & Hrec & Hpairs).
    simpl in Hsem, Hsub, Hfresh.
    assert (heap st ⊆ heap st') as Hsub'.
    { etrans; [|exact Hsub]. etrans; [|apply insert_subseteq].
      - apply insert_subseteq. by apply not_elem_of_dom.
      - by apply not_elem_of_dom. }
    assert (heap st' !! l = Some (names_of data)) as Hat_l.
    { eapply lookup_weaken; [|exact Hsub].
      rewrite lookup_insert_ne by set_solver. apply lookup_insert_eq. }
    assert (heap st' !! l_hq = Some (names_of data)) as Hat_l_hq.
    { eapply lookup_weaken; [|exact Hsub]. apply lookup_insert_eq. }
    assert (record_of (heap st') data false p.1) as Hrec1.
    { unfold record_of. by rewrite Hn, Hq, Hi. }
    assert (record_of (heap st') data true p.2) as Hrec2.
    { unfold record_of. by rewrite Hn', Hq', Hi'. }
    split_and!; try done.
    exists (p.1 :: p.2 :: new). split_and!.
    + by rewrite <- app_assoc.
    + simpl. lia.
    + simpl. rewrite Hn, Hn'. constructor; [|constructor; [|done]].
      * rewrite not_elem_of_cons. split; [set_solver|].
        intros (f & Hf & Hin)%list_elem_of_fmap. apply (Hfresh f Hin).
        rewrite <- Hf, dom_insert_L. set_solver.
      * intros (f & Hf & Hin)%list_elem_of_fmap. apply (Hfresh f Hin).
        rewrite <- Hf, dom_insert_L. set_solver.
    + intros f. rewrite !elem_of_cons. intros [->|[->|Hin]].
      * by rewrite Hn.
      * rewrite Hn'. set_solver.
      * intros Hdom'. apply (Hfresh f Hin). rewrite dom_insert_L. set_solver.
    + intros f. rewrite !elem_of_cons. intros [->|[->|Hin]]; eauto.
    + intros [|i] url'.
      * intros [= <-]. exists k, data, p.1, p.2. by split_and!.
      * intros (k' & data' & f & f_hq & ? & ? & ? & ? & ?)%Hpairs.
        exists k', data', f, f_hq. split_and!; try done.
        -- match goal with
           | |- _ !! ?n = _ => replace n with (S (S (2 * i))) by lia
           end.
           done.
        -- match goal with
           | |- _ !! ?n = _ => replace n with (S (S (2 * i + 1))) by lia
           end.
           done.
Qed.

(** C10: whatever order the detail tasks complete in, the list built by
    [fetch_items] holds, for the task that completed in position [i],
    its [hq] false record at index [2 i] and its [hq] true record right
    after it at index [2 i + 1], and nothing else. *)
Theorem pairs_stay_adjacent net fuel completed st food st' :
  fetch_items net completed fuel st = (Returned food, st') →
  length food = (2 * length completed)%nat
  ∧ ∀ i url, completed !! i = Some url →
      ∃ k data f f_hq,
        first_loaded (detail net url) k data
        ∧ food !! (2 * i)%nat = Some f ∧ food !! (2 * i + 1)%nat = Some f_hq
        ∧ record_of (heap st') data false f
        ∧ record_of (heap st') data true f_hq.
Proof.
  unfold fetch_items.
  intros (_ & _ & new & -> & Hlen & _ & _ & _ & Hpairs)%fetch_items_from_spec.
  done.
Qed.

Lemma pairs_stay_adjacent_witness :
  ∃ food st',
    fetch_items Demo.net ["/item/cider"; "/item/apple"] 5 Demo.init
    = (Returned food, st')
    ∧ length food = 4%nat
    ∧ ∃ k data f f_hq,
        first_loaded (detail Demo.net "/item/apple") k data
        ∧ food !! 2%nat = Some f ∧ food !! 3%nat = Some f_hq
        ∧ record_of (heap st') data false f
        ∧ record_of (heap st') data true f_hq.
Proof.
  destruct (fetch_items Demo.net ["/item/cider"; "/item/apple"] 5 Demo.init)
    as [[food| |] st'] eqn:Hrun; [|by vm_compute in Hrun..].
  exists food, st'. split; [reflexivity|].
  destruct (pairs_stay_adjacent Demo.net 5 ["/item/cider"; "/item/apple"]
              Demo.init food st' Hrun) as [Hlen Hpairs].
  split; [exact Hlen|].
  exact (Hpairs 1%nat "/item/apple" eq_refl).
Defined.

(** ** The order of the keys *)

Lemma string_compare_refl s : (s ?= s)%string = Eq.
Proof.
  pose proof (String.compare_antisym s s) as H.
  by destruct (s ?= s)%string.
Qed.

Lemma string_ltb_le s1 s2 :
  String.ltb s1 s2 = true ↔ String.le s1 s2 ∧ s1 ≠ s2.
Proof.
  unfold String.le, String.leb, String.ltb. split.
  - intros H. split.
    + by destruct (s1 ?= s2)%string.
    + intros ->. by rewrite string_compare_refl in H.
  - intros [Hle Hne]. destruct (s1 ?= s2)%string eqn:Hc; try done.
    by apply String.compare_eq_iff in Hc.
Qed.

Lemma string_ltb_trans s1 s2 s3 :
  String.ltb s1 s2 = true → String.ltb s2 s3 = true → String.ltb s1 s3 = true.
Proof.
  rewrite !string_ltb_le. intros [H12 Hne12] [H23 Hne23]. split.
  - by etrans.
  - intros ->. apply Hne12. by apply (anti_symm String.le).
Qed.

Lemma string_ltb_total s1 s2 :
  s1 ≠ s2 → String.ltb s1 s2 = true ∨ String.ltb s2 s1 = true.
Proof.
  intros Hne. rewrite !string_ltb_le.
  destruct (total String.le s1 s2); [left|right]; done.
Qed.

Lemma string_ltb_asym s1 s2 :
  String.ltb s1 s2 = true → String.ltb s2 s1 = false.
Proof.
  intros H12. destruct (String.ltb s2 s1) eqn:H21; [|done].
  pose proof (string_ltb_trans _ _ _ H12 H21) as H.
  apply string_ltb_le in H as [_ []]. done.
Qed.

Lemma key_ge_spec i1 n1 q1 i2 n2 q2 :
  key_ge (i1, n1, q1) (i2, n2, q2) = true
  ↔ i2 < i1
    ∨ i1 = i2 ∧ (String.ltb n2 n1 = true ∨ n1 = n2 ∧ (q1 = true ∨ q2 = false)).
Proof.
  unfold key_ge.
  destruct (decide (i1 = i2)) as [->|Hi];
    [destruct (decide (n1 = n2)) as [->|Hn]|].
  - split.
    + intros Hq. right. split; [done|]. right. split; [done|].
      destruct q1, q2; auto.
    + intros [?|[_ [Hn|[_ Hq]]]]; [lia|..].
      * apply string_ltb_le in Hn as [_ []]. done.
      * destruct Hq as [-> | ->]; [done|]. by destruct q1.
  - split; [auto|]. intros [?|[_ [?|[? _]]]]; (lia || done).
  - rewrite bool_decide_eq_true. split; [auto|]. intros [?|[? _]]; [done|lia].
Qed.

Lemma key_lt_ge a b : key_lt a b = negb (key_ge a b).
Proof.
  destruct a as [[i1 n1] q1], b as [[i2 n2] q2]. unfold key_lt, key_ge.
  destruct (decide (i1 = i2)) as [->|Hi];
    [destruct (decide (n1 = n2)) as [->|Hn]|].
  - by destruct q1, q2.
  - destruct (string_ltb_total n1 n2 Hn) as [H|H];
      rewrite H, (string_ltb_asym _ _ H); done.
  - destruct (decide (i1 < i2)).
    + rewrite bool_decide_true, bool_decide_false by lia. done.
    + rewrite bool_decide_false, bool_decide_true by lia. done.
Qed.

Lemma key_ge_total a b : key_ge a b = true ∨ key_ge b a = true.
Proof.
  destruct a as [[i1 n1] q1], b as [[i2 n2] q2]. rewrite !key_ge_spec.
  destruct (decide (i1 = i2)) as [->|]; [|lia].
  destruct (decide (n1 = n2)) as [->|Hne].
  - destruct q1, q2; naive_solver.
  - destruct (string_ltb_total n1 n2 Hne); naive_solver.
Qed.

Lemma key_ge_trans a b c :
  key_ge a b = true → key_ge b c = true → key_ge a c = true.
Proof.
  destruct a as [[i1 n1] q1], b as [[i2 n2] q2], c as [[i3 n3] q3].
  rewrite !key_ge_spec.
  intros [?|[-> Hab]] [?|[-> Hbc]]; [left; lia..|]. right. split; [done|].
  destruct Hab as [Hab|[-> Hab]], Hbc as [Hbc|[-> Hbc]].
  - left. by eapply string_ltb_trans.
  - by left.
  - by left.
  - right. split; [done|]. destruct q1, q2, q3; naive_solver.
Qed.

(** ** The sort *)

Section sort_facts.
Context {A K : Type} (key : A → K) (lt ge : K → K → bool).
Hypothesis lt_ge : ∀ a b, lt a b = negb (ge a b).
Hypothesis ge_total : ∀ a b, ge a b = true ∨ ge b a = true.
Hypothesis ge_trans : ∀ a b c, ge a b = true → ge b c = true → ge a c = true.

Lemma insert_reverse_perm x l : insert_reverse key lt x l ≡ₚ x :: l.
Proof.
  induction l as [|y l IH]; simpl; [done|].
  destruct (lt (key x) (key y)); [|done].
  rewrite IH. apply Permutation_swap.
Qed.

Lemma sort_reverse_perm l : sort_reverse key lt l ≡ₚ l.
Proof.
  induction l as [|x l IH]; simpl; [done|].
  by rewrite insert_reverse_perm, IH.
Qed.

Lemma insert_reverse_sorted x l :
  StronglySorted (λ a b, ge (key a) (key b) = true) l →
  StronglySorted (λ a b, ge (key a) (key b) = true) (insert_reverse key lt x l).
Proof.
  induction 1 as [|y l Hl IH Hy]; simpl.
  - repeat constructor.
  - rewrite lt_ge. destruct (ge (key x) (key y)) eqn:Hxy; simpl.
    + constructor; [by constructor|].
      constructor; [done|].
      eapply Forall_impl; [exact Hy|]. intros z Hz. by eapply ge_trans.
    + constructor; [done|].
      rewrite insert_reverse_perm. constructor; [|done].
      destruct (ge_total (key x) (key y)); congruence.
Qed.

Lemma sort_reverse_sorted l :
  StronglySorted (λ a b, ge (key a) (key b) = true) (sort_reverse key lt l).
Proof.
  induction l as [|x l IH]; simpl; [constructor|].
  by apply insert_reverse_sorted.
Qed.

(** Records with the same key keep the order they came in. *)
Lemma insert_reverse_filter (P : A → Prop) `{!∀ a, Decision (P a)} x l :
  (∀ a b, P a → P b → ge (key a) (key b) = true) →
  filter P (insert_reverse key lt x l) = filter P (x :: l).
Proof.
  intros Hsame. induction l as [|y l IH]; simpl; [done|].
  destruct (lt (key x) (key y)) eqn:Hlt; [|done].
  rewrite filter_cons, IH, !(filter_cons _ x), (filter_cons _ y).
  repeat case_decide; try done.
  rewrite lt_ge, Hsame in Hlt by done. done.
Qed.

Lemma sort_reverse_stable (P : A → Prop) `{!∀ a, Decision (P a)} l :
  (∀ a b, P a → P b → ge (key a) (key b) = true) →
  filter P (sort_reverse key lt l) = filter P l.
Proof.
  intros Hsame. induction l as [|x l IH]; simpl; [done|].
  rewrite insert_reverse_filter by done.
  by rewrite !filter_cons, IH.
Qed.

End sort_facts.


(** ** The localizer *)

(** One assignment [f['name'][lang] = ...] writes to the dictionary of
    names of [f] and to nothing else. *)
Lemma localize_name_other f h entry l' :
  l' ≠ name f → localize_name f h entry !! l' = h !! l'.
Proof. intros Hne. destruct entry as [lang l]. simpl. by rewrite lookup_insert_ne. Qed.

Lemma localize_name_self f h lang l :
  deref (localize_name f h (lang, l)) (name f)
  = <[lang := py_or (deref h l !! english_name h f) (english_name h f)]>
      (deref h (name f)).
Proof. unfold deref at 1. simpl. by rewrite lookup_insert_eq. Qed.

Lemma localize_name_is_Some f h entry l' :
  is_Some (h !! l') → is_Some (localize_name f h entry !! l').
Proof.
  intros Hl'. destruct entry as [lang l]. simpl.
  destruct (decide (l' = name f)) as [->|Hne].
  - rewrite lookup_insert_eq. eauto.
  - by rewrite lookup_insert_ne.
Qed.

(** As long as the language is not ["en"], no English name changes. *)
Lemma localize_name_english f h lang l g :
  lang ≠ "en" → english_name (localize_name f h (lang, l)) g = english_name h g.
Proof.
  intros Hlang. unfold english_name.
  destruct (decide (name g = name f)) as [->|Hne].
  - rewrite localize_name_self. by rewrite lookup_insert_ne.
  - unfold deref. by rewrite localize_name_other.
Qed.

Lemma localize_item_other (langs : languages) f h l' :
  l' ≠ name f → localize_item langs h f !! l' = h !! l'.
Proof.
  intros Hne. unfold localize_item. revert h.
  induction langs as [|entry langs IH]; intros h; [done|].
  simpl. by rewrite IH, localize_name_other.
Qed.

Lemma localize_item_is_Some (langs : languages) f h l' :
  is_Some (h !! l') → is_Some (localize_item langs h f !! l').
Proof.
  unfold localize_item. revert h.
  induction langs as [|entry langs IH]; intros h Hl'; [done|].
  simpl. by apply IH, localize_name_is_Some.
Qed.

Lemma localize_item_english (langs : languages) f h g :
  "en" ∉ langs.*1 → english_name (localize_item langs h f) g = english_name h g.
Proof.
  unfold localize_item. revert h.
  induction langs as [|[lang l] langs IH]; intros h Hen; [done|].
  simpl in *. apply not_elem_of_cons in Hen as [Hlang Hen].
  rewrite IH by done. by apply localize_name_english.
Qed.

Lemma localize_item_snoc (langs : languages) entry f h :
  localize_item (langs ++ [entry]) h f
  = localize_name f (localize_item langs h f) entry.
Proof. unfold localize_item. by rewrite foldl_app. Qed.

(** What the inner loop leaves in the dictionary of names of [f]. *)
Lemma localize_item_self (langs : languages) f h :
  NoDup langs.*1 → "en" ∉ langs.*1 →
  (∀ lang l, (lang, l) ∈ langs → l ≠ name f) →
  (∀ lang l, (lang, l) ∈ langs →
     deref (localize_item langs h f) (name f) !! lang
     = Some (py_or (deref h l !! english_name h f) (english_name h f)))
  ∧ (∀ k, k ∉ langs.*1 →
     deref (localize_item langs h f) (name f) !! k = deref h (name f) !! k).
Proof.
  induction langs as [|[lang l] langs IH] using rev_ind; intros Hnd Hen Hloc.
  - split; [by intros lang l ?%elem_of_nil | done].
  - rewrite fmap_app in Hnd, Hen. simpl in Hnd, Hen.
    apply NoDup_app in Hnd as (Hnd & Hfresh & _).
    apply not_elem_of_app in Hen as [Hen Hlang%not_elem_of_cons].
    destruct Hlang as [Hlang _].
    destruct IH as [IH1 IH2]; [done|done|..].
    { intros lang' l' Hin. apply (Hloc lang' l'), elem_of_app. by left. }
    assert (l ≠ name f) as Hl.
    { apply (Hloc lang l), elem_of_app. right. by left. }
    assert (lang ∉ langs.*1) as Hnew.
    { intros Hin. apply (Hfresh lang Hin). by left. }
    rewrite localize_item_snoc, localize_name_self.
    rewrite (localize_item_english langs f h f Hen).
    unfold deref at 1 4. rewrite (localize_item_other langs f h l Hl).
    fold (deref h l). split.
    + intros lang' l' [Hin|Hin]%elem_of_app.
      * rewrite lookup_insert_ne.
        -- by apply IH1.
        -- intros <-. apply Hnew, list_elem_of_fmap. by exists (lang, l').
      * apply list_elem_of_singleton in Hin as [= -> ->].
        by rewrite lookup_insert_eq.
    + intros k Hk. rewrite fmap_app in Hk.
      apply not_elem_of_app in Hk as [Hk Hk'%not_elem_of_cons].
      destruct Hk' as [Hk' _]. simpl in Hk'.
      rewrite lookup_insert_ne by done. by apply IH2.
Qed.

Lemma localize_other (langs : languages) food h l' :
  l' ∉ name <$> food → localize langs food h !! l' = h !! l'.
Proof.
  unfold localize. revert h.
  induction food as [|f food IH]; intros h Hl'; [done|].
  rewrite fmap_cons in Hl'. apply not_elem_of_cons in Hl' as [Hne Hl'].
  simpl. by rewrite IH, localize_item_other.
Qed.

Lemma localize_is_Some (langs : languages) food h l' :
  is_Some (h !! l') → is_Some (localize langs food h !! l').
Proof.
  unfold localize. revert h.
  induction food as [|f food IH]; intros h Hl'; [done|].
  simpl. by apply IH, localize_item_is_Some.
Qed.

Lemma localize_english (langs : languages) food h g :
  "en" ∉ langs.*1 → english_name (localize langs food h) g = english_name h g.
Proof.
  intros Hen. unfold localize. revert h.
  induction food as [|f food IH]; intros h; [done|].
  simpl. by rewrite IH, localize_item_english.
Qed.

Lemma localize_app (langs : languages) food1 food2 h :
  localize langs (food1 ++ food2) h = localize langs food2 (localize langs food1 h).
Proof. unfold localize. by rewrite foldl_app. Qed.

(** What the two loops leave in the dictionary of names of a record of
    the list, when no two records share their dictionary and none
    shares it with the table. *)
Lemma localize_self (langs : languages) food h f :
  f ∈ food → NoDup (name <$> food) →
  NoDup langs.*1 → "en" ∉ langs.*1 →
  (∀ g lang l, g ∈ food → (lang, l) ∈ langs → l ≠ name g) →
  (∀ lang l, (lang, l) ∈ langs →
     deref (localize langs food h) (name f) !! lang
     = Some (py_or (deref h l !! english_name h f) (english_name h f)))
  ∧ (∀ k, k ∉ langs.*1 →
     deref (localize langs food h) (name f) !! k = deref h (name f) !! k).
Proof.
  intros (food1 & food2 & ->)%list_elem_of_split Hnd Hlangs Hen Hloc.
  rewrite fmap_app, fmap_cons in Hnd.
  apply NoDup_app in Hnd as (_ & Hfresh1 & [Hfresh2 _]%NoDup_cons).
  assert (name f ∉ name <$> food1) as Hf1.
  { intros Hin. apply (Hfresh1 _ Hin). by left. }
  rewrite localize_app. change (f :: food2) with ([f] ++ food2).
  rewrite localize_app. set (h1 := localize langs food1 h).
  unfold deref at 1 3. rewrite !(localize_other langs food2) by done.
  change (localize langs [f] h1) with (localize_item langs h1 f).
  fold (deref (localize_item langs h1 f) (name f)).
  destruct (localize_item_self langs f h1 Hlangs Hen) as [H1 H2].
  { intros lang l Hin. apply (Hloc f lang l); [|done].
    apply elem_of_app. right. by left. }
  assert (deref h1 (name f) = deref h (name f)) as Hsame.
  { unfold deref, h1. by rewrite localize_other. }
  assert (english_name h1 f = english_name h f) as Hname.
  { unfold english_name. by rewrite Hsame. }
  split.
  - intros lang l Hin. rewrite (H1 lang l Hin), Hname.
    assert (deref h1 l = deref h l) as ->; [|done].
    unfold deref, h1. rewrite localize_other; [done|].
    intros (g & Hg & Hin')%list_elem_of_fmap.
    apply (Hloc g lang l); [|done..]. apply elem_of_app. by left.
  - intros k Hk. by rewrite (H2 k Hk), Hsame.
Qed.

(** ** One category from end to end *)

Lemma fetch_item_urls_from_heap net c fuel pages :
  ∀ page urls st out st',
    fetch_item_urls_from net c pages fuel page urls st = (Returned out, st') →
    heap st' = heap st.
Proof.
  induction pages as [|pages IH]; intros page urls st out st'; [done|].
  simpl.
  intros ([page_urls total] & st1 & (log & _ & Hheap)%await_inv & Hrest)%bind_inv.
  case_decide.
  - apply IH in Hrest. congruence.
  - injection Hrest as _ <-. done.
Qed.

Lemma fetch_all_items_inv net c (langs : languages) schedule pages fuel st out st' :
  fetch_all_items net c langs schedule pages fuel st = (Returned out, st') →
  ∃ urls st0 food st1,
    fetch_item_urls net c pages fuel st = (Returned urls, st0)
    ∧ fetch_items net (schedule urls) fuel st0 = (Returned food, st1)
    ∧ out = sort_reverse (sort_key (heap st1)) key_lt food
    ∧ heap st' = localize langs out (heap st1)
    ∧ heap st0 = heap st.
Proof.
  unfold fetch_all_items.
  intros (urls & st0 & Hurls & (food & st1 & Hfood & Hsort)%bind_inv)%bind_inv.
  unfold sort_and_localize in Hsort. injection Hsort as <- <-.
  exists urls, st0, food, st1. split_and!; try done.
  by eapply fetch_item_urls_from_heap.
Qed.

(** The records that reach the sort: no two share their dictionary of
    names, none of these dictionaries existed before the harvest, and
    each holds the names of a payload. *)
Lemma fetch_all_items_records net c (langs : languages) schedule pages fuel st out st' :
  fetch_all_items net c langs schedule pages fuel st = (Returned out, st') →
  ∃ h1,
    heap st ⊆ h1
    ∧ heap st' = localize langs out h1
    ∧ NoDup (name <$> out)
    ∧ (∀ f, f ∈ out → name f ∉ dom (heap st))
    ∧ (∀ f, f ∈ out → ∃ data quality, record_of h1 data quality f)
    ∧ StronglySorted (λ a b, key_ge (sort_key h1 a) (sort_key h1 b) = true) out.
Proof.
  intros (urls & st0 & food & st1 & _ & Hfood & -> & Hheap & Hst0)%fetch_all_items_inv.
  unfold fetch_items in Hfood.
  apply fetch_items_from_spec
    in Hfood as (_ & Hsub & new & -> & _ & Hnd & Hfresh & Hrec & _).
  rewrite app_nil_l in Hheap |- *. rewrite Hst0 in Hsub, Hfresh.
  pose proof (sort_reverse_perm (sort_key (heap st1)) key_lt new) as Hperm.
  exists (heap st1). split_and!; try done.
  - by rewrite Hperm.
  - intros f Hf. rewrite Hperm in Hf. by apply Hfresh.
  - intros f Hf. rewrite Hperm in Hf. by apply Hrec.
  - apply (sort_reverse_sorted (sort_key (heap st1)) key_lt key_ge).
    + apply key_lt_ge.
    + apply key_ge_total.
    + apply key_ge_trans.
Qed.

Lemma record_of_english h data quality f :
  record_of h data quality f → deref h (name f) !! "en" = Some (name_en data).
Proof.
  intros (_ & _ & Hnames). unfold deref. rewrite Hnames. simpl.
  unfold names_of. apply lookup_insert_eq.
Qed.






(** C3 as it is worded fails when ["en"] is given a table of its own:
    the list is sorted before the names are assigned, so with
    ["Apple"] renamed ["Zebra"] the record of the banana (level 10,
    ["Banana"]) still comes before that of the apple (level 10, now
    ["Zebra"]). *)
Lemma output_sorted_by_final_names_fails : ¬ output_sorted_by_final_names.
Proof.
  intros Hclaim.
  destruct (fetch_all_items Demo.net Food Demo.langs_en reverse 5 5 Demo.loaded_en)
    as [[out| |] st'] eqn:Hrun; [|by vm_compute in Hrun..].
  assert (∃ a b,
             out !! 3%nat = Some a ∧ out !! 4%nat = Some b
             ∧ ilvl a = 10 ∧ ilvl b = 10
             ∧ deref (heap st') (name a) !! "en" = Some "Banana"
             ∧ deref (heap st') (name b) !! "en" = Some "Zebra")
    as (a & b & Ha & Hb & Hla & Hlb & Hea & Heb).
  { vm_compute in Hrun. injection Hrun as <- <-.
    eexists _, _. split; [reflexivity|]. split; [reflexivity|].
    split; [reflexivity|]. split; [reflexivity|].
    split; vm_compute; reflexivity. }
  destruct (Hclaim Demo.net Food Demo.langs_en reverse 5%nat 5%nat Demo.loaded_en
              out st' Hrun) with (i := 3%nat) (a := a) (b := b)
              (ea := "Banana") (eb := "Zebra")
    as [Hlt|[_ [Hlt|[Hname _]]]]; try done.
  - repeat constructor. by intros ?%elem_of_nil.
  - intros lang l [= -> ->]%list_elem_of_singleton. apply elem_of_dom.
    eexists. apply lookup_singleton_eq.
  - lia.
Qed.

(** What the localizer leaves in the dictionary of names of a record
    of the output. *)
Lemma fetch_all_items_names net c (langs : languages) schedule pages fuel st out st' :
  fetch_all_items net c langs schedule pages fuel st = (Returned out, st') →
  NoDup langs.*1 → "en" ∉ langs.*1 →
  (∀ lang l, (lang, l) ∈ langs → l ∈ dom (heap st)) →
  ∀ f lang l,
    f ∈ out → (lang, l) ∈ langs →
    ∃ e, deref (heap st') (name f) !! "en" = Some e
         ∧ deref (heap st') (name f) !! lang
           = Some (py_or (deref (heap st) l !! e) e).
Proof.
  intros (h1 & Hsub & Hheap & Hnd & Hfresh & Hrec & _)%fetch_all_items_records
    Hlangs Hen Htable f lang l Hf Hin.
  destruct (Hrec f Hf) as (data & quality & Hdata).
  pose proof (record_of_english _ _ _ _ Hdata) as Henglish.
  destruct (localize_self langs out h1 f Hf Hnd Hlangs Hen) as [H1 H2].
  { intros g lang' l' Hg Hin' ->. apply (Hfresh g Hg). by eapply Htable. }
  exists (name_en data). rewrite Hheap. split.
  - by rewrite (H2 "en" Hen).
  - rewrite (H1 lang l Hin). unfold english_name. rewrite Henglish. simpl.
    assert (deref h1 l = deref (heap st) l) as ->; [|done].
    pose proof (Htable lang l Hin) as [d Hd]%elem_of_dom.
    unfold deref. by rewrite Hd, (lookup_weaken _ _ _ _ Hd Hsub).
Qed.

(** C7, as the code has it: when ["en"] is not one of the override
    languages, every record of the output has, for every override
    language, the value the table of that language holds for the
    record's English name when there is one and it is not the empty
    string, and the English name otherwise. *)
Theorem names_follow_override_table net c (langs : languages) schedule pages fuel
    st out st' :
  fetch_all_items net c langs schedule pages fuel st = (Returned out, st') →
  NoDup langs.*1 → "en" ∉ langs.*1 →
  (∀ lang l, (lang, l) ∈ langs → l ∈ dom (heap st)) →
  ∀ f lang l,
    f ∈ out → (lang, l) ∈ langs →
    ∃ e, deref (heap st') (name f) !! "en" = Some e
         ∧ deref (heap st') (name f) !! lang
           = Some (match deref (heap st) l !! e with
                   | Some v => if decide (v = "") then e else v
                   | None => e
                   end).
Proof. apply fetch_all_items_names. Qed.

(** C9: a run of [fetch_all_items] leaves every object that existed
    when it started as it was, the dictionaries of the override table
    among them: the loop over the languages only writes to the
    dictionaries of names made by [fetch_item]. *)
Theorem override_table_untouched net c (langs : languages) schedule pages fuel
    st out st' :
  fetch_all_items net c langs schedule pages fuel st = (Returned out, st') →
  (∀ lang l, (lang, l) ∈ langs → l ∈ dom (heap st) →
     heap st' !! l = heap st !! l)
  ∧ (∀ l, l ∈ dom (heap st) → heap st' !! l = heap st !! l).
Proof.
  intros (h1 & Hsub & Hheap & _ & Hfresh & _ & _)%fetch_all_items_records.
  assert (∀ l, l ∈ dom (heap st) → heap st' !! l = heap st !! l) as Hframe.
  { intros l [d Hd]%elem_of_dom. rewrite Hheap, localize_other.
    - by rewrite Hd, (lookup_weaken _ _ _ _ Hd Hsub).
    - intros (f & -> & Hf)%list_elem_of_fmap. apply (Hfresh f Hf).
      apply elem_of_dom. eauto. }
  split; [|done]. intros lang l _. apply Hframe.
Qed.

Lemma demo_table_loaded :
  load_languages [("ja", Demo.ja)] [] Demo.init = (Returned Demo.langs, Demo.loaded).
Proof. reflexivity. Qed.

Lemma demo_langs_nodup : NoDup Demo.langs.*1.
Proof. repeat constructor. by intros ?%elem_of_nil. Qed.

Lemma demo_langs_no_en : "en" ∉ Demo.langs.*1.
Proof. by intros [=]%list_elem_of_singleton. Qed.

Lemma demo_langs_loaded lang l :
  (lang, l) ∈ Demo.langs → l ∈ dom (heap Demo.loaded).
Proof.
  intros [= -> ->]%list_elem_of_singleton. apply elem_of_dom.
  eexists. apply lookup_singleton_eq.
Qed.

Lemma demo_langs_en_loaded lang l :
  (lang, l) ∈ Demo.langs_en → l ∈ dom (heap Demo.loaded_en).
Proof.
  intros [= -> ->]%list_elem_of_singleton. apply elem_of_dom.
  eexists. apply lookup_singleton_eq.
Qed.

Lemma names_follow_override_table_witness :
  ∃ out st',
    fetch_all_items Demo.net Food Demo.langs reverse 5 5 Demo.loaded
    = (Returned out, st')
    ∧ ∀ f, f ∈ out →
        ∃ e, deref (heap st') (name f) !! "en" = Some e
             ∧ deref (heap st') (name f) !! "ja"
               = Some (match Demo.ja !! e with
                       | Some v => if decide (v = "") then e else v
                       | None => e
                       end).
Proof.
  destruct (fetch_all_items Demo.net Food Demo.langs reverse 5 5 Demo.loaded)
    as [[out| |] st'] eqn:Hrun; [|by vm_compute in Hrun..].
  exists out, st'. split; [reflexivity|].
  intros f Hf.
  apply (names_follow_override_table Demo.net Food Demo.langs reverse 5 5
           Demo.loaded out st' Hrun demo_langs_nodup demo_langs_no_en
           demo_langs_loaded f "ja" 1%positive Hf).
  by left.
Defined.

Lemma override_table_untouched_witness :
  ∃ out st',
    fetch_all_items Demo.net Food Demo.langs reverse 5 5 Demo.loaded
    = (Returned out, st')
    ∧ heap st' !! 1%positive = Some Demo.ja.
Proof.
  destruct (fetch_all_items Demo.net Food Demo.langs reverse 5 5 Demo.loaded)
    as [[out| |] st'] eqn:Hrun; [|by vm_compute in Hrun..].
  exists out, st'. split; [reflexivity|].
  rewrite (proj2 (override_table_untouched Demo.net Food Demo.langs reverse 5 5
                    Demo.loaded out st' Hrun) 1%positive).
  - reflexivity.
  - apply (demo_langs_loaded "ja"). by left.
Defined.

(** C7 as it is worded fails on a table that maps a name to the empty
    string: ["Cider"] is a key of the table for ["ja"], with value [""],
    and the record is given ["Cider"] as its ["ja"] name. *)
Lemma override_whenever_present_fails : ¬ override_whenever_present.
Proof.
  intros Hclaim.
  destruct (fetch_all_items Demo.net Food Demo.langs reverse 5 5 Demo.loaded)
    as [[out| |] st'] eqn:Hrun; [|by vm_compute in Hrun..].
  assert (∃ f, f ∈ out
               ∧ deref (heap st') (name f) !! "en" = Some "Cider"
               ∧ deref (heap st') (name f) !! "ja" = Some "Cider")
    as (f & Hf & Hen & Hja).
  { vm_compute in Hrun. injection Hrun as <- <-.
    eexists. split; [by left|]. split; vm_compute; reflexivity. }
  pose proof (Hclaim Demo.net Food Demo.langs reverse 5%nat 5%nat Demo.loaded
                out st' Hrun demo_langs_nodup demo_langs_no_en
                demo_langs_loaded f "ja" 1%positive "Cider" Hf
                ltac:(by left) Hen) as Hwrong.
  rewrite Hja in Hwrong. vm_compute in Hwrong. discriminate Hwrong.
Qed.

(** ** The run comes to an end *)

(** The statements above about what [fetch_items] and [fetch_all_items]
    return are about runs that do return.  They do, given fuel, as soon
    as every target answers in the end. *)
Lemma fetch_item_returns net url fuel st k data :
  0 < sem st → (k < fuel)%nat → first_loaded (detail net url) k data →
  ∃ r st', fetch_item net url fuel st = (Returned r, st') ∧ sem st' = sem st.
Proof.
  intros Hsem Hk Hfirst.
  pose proof (retry_first_loaded (λ d : payload, d) _ fuel k (sem st) data
                Hsem Hk Hfirst) as Hpage.
  rewrite (fetch_item_returned net url fuel st data (sem st) _ Hpage).
  rewrite make_records_returned. eauto.
Qed.

Lemma fetch_items_from_returns net fuel completed :
  ∀ food st,
    0 < sem st →
    (∀ url, url ∈ completed →
       ∃ k data, (k < fuel)%nat ∧ first_loaded (detail net url) k data) →
    ∃ food' st',
      fetch_items_from net completed fuel food st = (Returned food', st')
      ∧ sem st' = sem st.
Proof.
  induction completed as [|url completed IH]; intros food st Hsem Hload.
  - by exists food, st.
  - destruct (Hload url) as (k & data & Hk & Hfirst); [by left|].
    destruct (fetch_item_returns net url fuel st k data Hsem Hk Hfirst)
      as (r & st1 & Hitem & Hsem1).
    destruct (IH (food ++ r) st1) as (food' & st' & Hrest & Hsem').
    { by rewrite Hsem1. }
    { intros url' Hin. apply Hload. by right. }
    exists food', st'. simpl. rewrite (bind_returned _ _ _ _ _ Hitem).
    split; [done|congruence].
Qed.

Lemma fetch_all_items_returns net c (langs : languages) schedule fuel
    (doc : Z → listing) p pages st :
  0 < sem st → 1 ≤ p →
  (∀ i, 1 ≤ i ≤ p →
     ∃ k, (k < fuel)%nat ∧ first_loaded (search net (CATEGORIES c) i) k (doc i)) →
  (∀ i, 1 ≤ i < p → i < items_paging_total (doc i)) →
  items_paging_total (doc p) ≤ p →
  (Z.to_nat p ≤ pages)%nat →
  (∀ urls url, url ∈ schedule urls →
     ∃ k data, (k < fuel)%nat ∧ first_loaded (detail net url) k data) →
  ∃ out st', fetch_all_items net c langs schedule pages fuel st = (Returned out, st').
Proof.
  intros Hsem Hp Hdoc Hmore Hstop Hpages Hload.
  destruct (enumerate_pages net c fuel doc st p (Z.to_nat (p - 1)) Hsem 1 [] pages)
    as [Hurls _]; [lia|done..|].
  specialize (Hurls ltac:(lia)).
  set (urls := [] ++ _) in Hurls.
  destruct (fetch_items_from_returns net fuel (schedule urls) [] st Hsem)
    as (food & st1 & Hfood & _); [by apply Hload|].
  unfold fetch_all_items, fetch_item_urls.
  rewrite (bind_returned _ _ _ _ _ Hurls).
  unfold fetch_items. rewrite (bind_returned _ _ _ _ _ Hfood).
  unfold sort_and_localize. eauto.
Qed.

(** * Further properties of the code *)

(** ** The fetcher, whatever its outcome *)

Section retry_outcomes.
Context {D A : Type} (parse : D → A) (attempts : nat → response D).

Lemma retry_counter fuel k sem seen :
  (retry parse attempts fuel k sem seen).1.2 = sem.
Proof.
  revert k seen. induction fuel as [|fuel IH]; intros k seen; [done|].
  simpl. destruct (Limiter.acquire sem) as [held|] eqn:Hacq; [|done].
  rewrite (release_acquire _ _ Hacq).
  destruct (protected parse (attempts k)); [done|]. apply IH.
Qed.

Lemma retry_returned_inv fuel k sem seen a counter log :
  retry parse attempts fuel k sem seen = (Returned a, counter, log) →
  ∃ n data,
    (n < fuel)%nat
    ∧ (∀ j, (k ≤ j < k + n)%nat → failed (attempts j) = true)
    ∧ attempts (k + n)%nat = Loaded data
    ∧ a = parse data ∧ 0 < sem ∧ counter = sem
    ∧ log = seen ++ replicate n sem.
Proof.
  revert k seen. induction fuel as [|fuel IH]; intros k seen; [done|].
  simpl. destruct (Limiter.acquire sem) as [held|] eqn:Hacq; [|done].
  rewrite (release_acquire _ _ Hacq).
  apply acquire_Some in Hacq as [Hsem _].
  destruct (attempts k) as [| |data] eqn:Hk; simpl.
  - intros (n & data & Hn & Hfail & Hload & -> & _ & -> & ->)%IH.
    exists (S n), data. split_and!; try done.
    + lia.
    + intros j Hj. destruct (decide (j = k)) as [->|]; [by rewrite Hk|].
      apply Hfail. lia.
    + by rewrite <- Nat.add_succ_comm.
    + by rewrite <- app_assoc.
  - intros (n & data & Hn & Hfail & Hload & -> & _ & -> & ->)%IH.
    exists (S n), data. split_and!; try done.
    + lia.
    + intros j Hj. destruct (decide (j = k)) as [->|]; [by rewrite Hk|].
      apply Hfail. lia.
    + by rewrite <- Nat.add_succ_comm.
    + by rewrite <- app_assoc.
  - intros [= <- <- <-]. exists 0%nat, data. split_and!; try done.
    + lia.
    + intros j Hj. lia.
    + by rewrite Nat.add_0_r.
    + by rewrite app_nil_r.
Qed.

Lemma retry_blocked fuel k sem seen :
  sem ≤ 0 → retry parse attempts (S fuel) k sem seen = (Blocked, sem, seen).
Proof.
  intros Hsem. simpl. by rewrite (proj2 (acquire_None sem) Hsem).
Qed.

End retry_outcomes.

(** X1: a fetch leaves the counter of the semaphore where it found it,
    whether it returned, is still retrying or never got a permit. *)
Theorem fetch_gives_permit_back net fuel sem :
  (∀ url, (fetch_page net url fuel sem).1.2 = sem)
  ∧ (∀ c page, (fetch_item_links_page net c page fuel sem).1.2 = sem).
Proof. split; intros; apply retry_counter. Qed.

(** X2: what a fetch returns is what the first attempt that did not
    raise decoded: that attempt came within the fuel, every attempt
    before it raised, a permit was there to be had, and the handler was
    entered once for each attempt that raised. *)
Theorem fetch_returns_first_success_only net fuel sem :
  (∀ url data counter log,
      fetch_page net url fuel sem = (Returned data, counter, log) →
      ∃ k, (k < fuel)%nat ∧ first_loaded (detail net url) k data
           ∧ 0 < sem ∧ counter = sem ∧ log = replicate k sem)
  ∧ (∀ c page r counter log,
      fetch_item_links_page net c page fuel sem = (Returned r, counter, log) →
      ∃ k data, (k < fuel)%nat
                ∧ first_loaded (search net (CATEGORIES c) page) k data
                ∧ r = parse_item_links_page data
                ∧ 0 < sem ∧ counter = sem ∧ log = replicate k sem).
Proof.
  split.
  - intros url data counter log
      (n & data' & Hn & Hfail & Hload & -> & Hsem & -> & ->)%retry_returned_inv.
    exists n. split_and!; try done. split; [|done].
    intros j Hj. apply Hfail. lia.
  - intros c page r counter log
      (n & data & Hn & Hfail & Hload & -> & Hsem & -> & ->)%retry_returned_inv.
    exists n, data. split_and!; try done. split; [|done].
    intros j Hj. apply Hfail. lia.
Qed.

Lemma fetch_returns_first_success_only_witness :
  ∃ k, (k < 5)%nat ∧ first_loaded (detail Demo.net "/item/apple") k Demo.apple
       ∧ 0 < 4 ∧ 4 = 4 ∧ [4; 4] = replicate k 4.
Proof.
  apply (proj1 (fetch_returns_first_success_only Demo.net 5 4)
           "/item/apple" Demo.apple 4 [4; 4]).
  reflexivity.
Defined.

(** ** The counter over a whole run *)

Lemma keeps_counter_ret {A} (a : A) : keeps_counter (mret a).
Proof. by intros st. Qed.

Lemma keeps_counter_bind {A B} (m : M A) (k : A → M B) :
  keeps_counter m → (∀ a, keeps_counter (k a)) → keeps_counter (m ≫= k).
Proof.
  intros Hm Hk st. unfold mbind, M_bind.
  specialize (Hm st). destruct (m st) as [[a| |] st1]; simpl in *; [|done..].
  by rewrite Hk.
Qed.

Lemma keeps_counter_await {A} (r : Z → run A) :
  (∀ counter, (r counter).1.2 = counter) → keeps_counter (await r).
Proof.
  intros Hr st. unfold await. specialize (Hr (sem st)).
  by destruct (r (sem st)) as [[s counter] log].
Qed.

Lemma keeps_counter_alloc d : keeps_counter (alloc d).
Proof. by intros st. Qed.

Lemma keeps_counter_fetch_item_urls_from net c fuel pages page urls :
  keeps_counter (fetch_item_urls_from net c pages fuel page urls).
Proof.
  revert page urls. induction pages as [|pages IH]; intros page urls; [done|].
  simpl. apply keeps_counter_bind.
  - apply keeps_counter_await. intros counter. apply retry_counter.
  - intros [page_urls total]. case_decide; [apply IH | apply keeps_counter_ret].
Qed.

Lemma keeps_counter_make_records data : keeps_counter (make_records data).
Proof. intros st. by rewrite make_records_returned. Qed.

Lemma keeps_counter_fetch_item net url fuel : keeps_counter (fetch_item net url fuel).
Proof.
  apply keeps_counter_bind.
  - apply keeps_counter_await. intros counter. apply retry_counter.
  - apply keeps_counter_make_records.
Qed.

Lemma keeps_counter_fetch_items_from net fuel completed food :
  keeps_counter (fetch_items_from net completed fuel food).
Proof.
  revert food. induction completed as [|url completed IH]; intros food.
  - apply keeps_counter_ret.
  - simpl. apply keeps_counter_bind; [apply keeps_counter_fetch_item | intros r; apply IH].
Qed.

Lemma keeps_counter_fetch_all_items net c (langs : languages) schedule pages fuel :
  keeps_counter (fetch_all_items net c langs schedule pages fuel).
Proof.
  apply keeps_counter_bind; [apply keeps_counter_fetch_item_urls_from|].
  intros urls. apply keeps_counter_bind; [apply keeps_counter_fetch_items_from|].
  by intros food st.
Qed.

Lemma scrape_categories_counter can_open net (langs : languages) schedule pages fuel
    categories :
  ∀ written st,
    sem (scrape_categories can_open net langs schedule pages fuel categories
           written st).1.2
    = sem st.
Proof.
  induction categories as [|c categories IH]; intros written st; [done|].
  simpl.
  pose proof (keeps_counter_fetch_all_items net c langs schedule pages fuel st) as Hc.
  destruct (fetch_all_items net c langs schedule pages fuel st) as [[recipes| |] st1];
    simpl in *; [|done..].
  destruct (can_open _); [by rewrite IH | done].
Qed.

(** X3: however a run of [scrape_items] goes, whether it wrote both
    files, was ended by [open], is still retrying somewhere or is
    waiting for a permit, the counter of the semaphore stands where it
    stood at the start: no request that failed has cost a permit. *)
Theorem scrape_items_keeps_capacity can_open net (langs : languages) schedule pages
    fuel st :
  sem (scrape_items can_open net langs schedule pages fuel st).1.2 = sem st.
Proof. apply scrape_categories_counter. Qed.

(** X4: with no permit to be had (capacity 0), the run is suspended in
    the [acquire] of the request for the first listing page: no matter
    what the catalogue would answer and whether or not the files could
    be opened, nothing is written and nothing changes. *)
Theorem no_permit_no_file can_open net (langs : languages) schedule pages fuel st :
  sem st ≤ 0 →
  scrape_items can_open net langs schedule (S pages) (S fuel) st = (Suspended, st, []).
Proof.
  intros Hsem. unfold scrape_items, CATEGORIES_keys. simpl scrape_categories.
  assert (fetch_all_items net Food langs schedule (S pages) (S fuel) st = (Blocked, st))
    as ->; [|done].
  unfold fetch_all_items, fetch_item_urls. simpl fetch_item_urls_from.
  unfold mbind, M_bind, await, fetch_item_links_page.
  rewrite retry_blocked by done. by destruct st.
Qed.

Lemma no_permit_no_file_witness :
  scrape_items (λ _, true) Demo.net Demo.langs reverse 5 5
    {| sem := 0; heap := heap Demo.loaded |}
  = (Suspended, {| sem := 0; heap := heap Demo.loaded |}, []).
Proof.
  apply (no_permit_no_file (λ _, true) Demo.net Demo.langs reverse 4 4
           {| sem := 0; heap := heap Demo.loaded |}).
  simpl. lia.
Defined.

(** ** The enumerator, the other way round *)

Lemma enumerate_forever net c fuel (doc : Z → listing) st pages :
  0 < sem st →
  ∀ page urls,
    (∀ i, page ≤ i →
       ∃ k, (k < fuel)%nat ∧ first_loaded (search net (CATEGORIES c) i) k (doc i)) →
    (∀ i, page ≤ i → i < items_paging_total (doc i)) →
    fetch_item_urls_from net c pages fuel page urls st = (Pending, st).
Proof.
  intros Hsem. induction pages as [|pages IH]; intros page urls Hdoc Hmore; [done|].
  destruct (Hdoc page ltac:(lia)) as (k & Hk & Hfirst).
  rewrite (enumerate_page net c fuel st pages page urls k _ Hsem Hk Hfirst).
  rewrite decide_True by (apply Hmore; lia).
  apply IH; intros i Hi; [apply Hdoc | apply Hmore]; lia.
Qed.

(** X5: when every listing page reports a total beyond its own number,
    the enumerator never stops: however many pages it is allowed, it has
    asked for all of them and is still going. *)
Theorem enumerator_runs_away net c fuel (doc : Z → listing) st :
  0 < sem st →
  (∀ i, 1 ≤ i →
     ∃ k, (k < fuel)%nat ∧ first_loaded (search net (CATEGORIES c) i) k (doc i)) →
  (∀ i, 1 ≤ i → i < items_paging_total (doc i)) →
  ∀ pages, fetch_item_urls net c pages fuel st = (Pending, st).
Proof.
  intros Hsem Hdoc Hmore pages. unfold fetch_item_urls.
  by apply (enumerate_forever net c fuel doc).
Qed.

Lemma enumerate_inv net c fuel pages :
  ∀ page acc st urls st',
    fetch_item_urls_from net c pages fuel page acc st = (Returned urls, st') →
    ∃ (m : nat) (doc : Z → listing),
      (S m ≤ pages)%nat
      ∧ (∀ i, page ≤ i ≤ page + Z.of_nat m →
           ∃ k, (k < fuel)%nat
                ∧ first_loaded (search net (CATEGORIES c) i) k (doc i))
      ∧ (∀ i, page ≤ i < page + Z.of_nat m → i < items_paging_total (doc i))
      ∧ items_paging_total (doc (page + Z.of_nat m)) ≤ page + Z.of_nat m
      ∧ urls = acc ++ concat ((λ i, (parse_item_links_page (doc i)).1)
                                <$> seqZ page (Z.of_nat (S m)))
      ∧ st' = st.
Proof.
  induction pages as [|pages IH]; intros page acc st urls st'; [done|].
  simpl.
  intros ([page_urls total] & st1 & (log & Hpage & Hheap)%await_inv & Hrest)%bind_inv.
  apply retry_returned_inv
    in Hpage as (k & data & Hk & Hfail & Hload & [= -> ->] & Hsem & Hcounter & _).
  assert (st1 = st) as ->.
  { destruct st, st1. simpl in *. by subst. }
  assert (first_loaded (search net (CATEGORIES c) page) k data) as Hfirst.
  { split; [|done]. intros j Hj. apply Hfail. lia. }
  case_decide as Htotal.
  - apply IH in Hrest as (m & doc & Hm & Hdoc & Hmore & Hstop & -> & ->).
    exists (S m), (λ i, if decide (i = page) then data else doc i).
    split_and!; try done.
    + lia.
    + intros i Hi. case_decide as Hip; [subst; eauto|]. apply Hdoc. lia.
    + intros i Hi. case_decide as Hip; [by subst|]. apply Hmore. lia.
    + rewrite decide_False by lia.
      replace (page + Z.of_nat (S m)) with (page + 1 + Z.of_nat m) by lia. done.
    + rewrite (seqZ_cons page (Z.of_nat (S (S m)))) by lia.
      rewrite fmap_cons, decide_True by done. simpl concat.
      rewrite <- app_assoc. do 2 f_equal.
      replace (Z.pred (Z.of_nat (S (S m)))) with (Z.of_nat (S m)) by lia.
      f_equal. apply list_fmap_ext. intros j i Hi.
      apply lookup_seqZ in Hi as [-> _].
      rewrite decide_False by lia. done.
  - injection Hrest as <- <-.
    exists 0%nat, (λ _, data). split_and!; try done.
    + lia.
    + intros i Hi. assert (i = page) as -> by lia. eauto.
    + intros i Hi. lia.
    + replace (page + Z.of_nat 0) with page by lia. simpl. lia.
    + simpl. by rewrite app_nil_r.
Qed.

(** X6: a list of urls returned by the enumerator is never a partial
    listing.  There is a page [p], reached within the pages allowed,
    such that the list is made of the urls of the pages 1 to [p] in
    page order, every page before [p] reported a total above its own
    number, page [p] did not, and each page is what the first attempt
    at it that did not raise decoded.  The state is as it was. *)
Theorem enumerator_returns_whole_listing net c pages fuel st urls st' :
  fetch_item_urls net c pages fuel st = (Returned urls, st') →
  ∃ (p : Z) (doc : Z → listing),
    1 ≤ p ∧ (Z.to_nat p ≤ pages)%nat
    ∧ (∀ i, 1 ≤ i ≤ p →
         ∃ k, (k < fuel)%nat
              ∧ first_loaded (search net (CATEGORIES c) i) k (doc i))
    ∧ (∀ i, 1 ≤ i < p → i < items_paging_total (doc i))
    ∧ items_paging_total (doc p) ≤ p
    ∧ urls = concat ((λ i, (parse_item_links_page (doc i)).1) <$> seqZ 1 p)
    ∧ st' = st.
Proof.
  unfold fetch_item_urls.
  intros (m & doc & Hm & Hdoc & Hmore & Hstop & -> & ->)%enumerate_inv.
  exists (1 + Z.of_nat m), doc.
  replace (Z.of_nat (S m)) with (1 + Z.of_nat m) by lia.
  split_and!; try done; lia.
Qed.

Lemma enumerator_returns_whole_listing_witness :
  ∃ (p : Z) (doc : Z → listing),
    1 ≤ p ∧ (Z.to_nat p ≤ 5)%nat
    ∧ (∀ i, 1 ≤ i ≤ p →
         ∃ k, (k < 5)%nat
              ∧ first_loaded (search Demo.net (CATEGORIES Food) i) k (doc i))
    ∧ (∀ i, 1 ≤ i < p → i < items_paging_total (doc i))
    ∧ items_paging_total (doc p) ≤ p
    ∧ ["/item/apple"; "/item/banana"; "/item/cider"]
      = concat ((λ i, (parse_item_links_page (doc i)).1) <$> seqZ 1 p)
    ∧ Demo.init = Demo.init.
Proof.
  apply (enumerator_returns_whole_listing Demo.net Food 5 5 Demo.init).
  reflexivity.
Defined.

Lemma enumerator_runs_away_witness :
  fetch_item_urls Demo.endless Food 7 1 Demo.init = (Pending, Demo.init).
Proof.
  apply (enumerator_runs_away Demo.endless Food 1
           (λ i, {| items_results := []; items_paging_total := i + 1 |})
           Demo.init).
  - simpl. lia.
  - intros i Hi. exists 0%nat. split; [lia|]. split; [intros j Hj; lia | done].
  - intros i Hi. simpl. lia.
Defined.

(** ** The keys of a record *)

Lemma scan_attribute_other_key key quality p attr :
  (∀ n stat pct, (n, stat) ∈ ATTRIBUTES → key ≠ stat_key stat pct) →
  stats (side quality (scan_attribute p attr)) !! key
  = stats (side quality p) !! key.
Proof.
  intros Hkey. destruct p as [food food_hq].
  pose proof (Hkey 70 "craftsmanship" false ltac:(repeat constructor)) as H1.
  pose proof (Hkey 70 "craftsmanship" true ltac:(repeat constructor)) as H2.
  pose proof (Hkey 71 "control" false ltac:(repeat constructor)) as H3.
  pose proof (Hkey 71 "control" true ltac:(repeat constructor)) as H4.
  pose proof (Hkey 11 "cp" false ltac:(repeat constructor)) as H5.
  pose proof (Hkey 11 "cp" true ltac:(repeat constructor)) as H6.
  unfold stat_key in *. simpl in H1, H2, H3, H4, H5, H6.
  unfold scan_attribute, record_attribute.
  repeat case_decide; destruct quality; simpl;
    rewrite ?lookup_insert_ne by done; done.
Qed.

Lemma scan_other_key key quality attrs p :
  (∀ n stat pct, (n, stat) ∈ ATTRIBUTES → key ≠ stat_key stat pct) →
  stats (side quality (foldl scan_attribute p attrs)) !! key
  = stats (side quality p) !! key.
Proof.
  intros Hkey. revert p. induction attrs as [|attr attrs IH]; intros p; [done|].
  simpl. by rewrite IH, scan_attribute_other_key.
Qed.

Lemma last_filter_is_Some {A} (P : A → Prop) `{!∀ x, Decision (P x)} (l : list A) :
  is_Some (last (filter P l)) ↔ ∃ x, x ∈ l ∧ P x.
Proof.
  split.
  - intros [x Hx]. apply last_Some_elem_of, list_elem_of_filter in Hx.
    exists x. tauto.
  - intros (x & Hx & HP). destruct (last (filter P l)) eqn:Hlast; [eauto|].
    apply last_None in Hlast.
    assert (x ∈ filter P l) as Hin by (by apply list_elem_of_filter).
    rewrite Hlast in Hin. by apply elem_of_nil in Hin.
Qed.

Lemma stat_key_cases key :
  (∃ n stat pct, (n, stat) ∈ ATTRIBUTES ∧ key = stat_key stat pct)
  ∨ (∀ n stat pct, (n, stat) ∈ ATTRIBUTES → key ≠ stat_key stat pct).
Proof.
  destruct (decide (key ∈ [stat_key "craftsmanship" false; stat_key "craftsmanship" true;
                           stat_key "control" false; stat_key "control" true;
                           stat_key "cp" false; stat_key "cp" true])) as [Hin|Hout].
  - left. rewrite !elem_of_cons, elem_of_nil in Hin.
    destruct Hin as [->|[->|[->|[->|[->|[->|[]]]]]]].
    + exists 70, "craftsmanship", false. split; [repeat constructor|done].
    + exists 70, "craftsmanship", true. split; [repeat constructor|done].
    + exists 71, "control", false. split; [repeat constructor|done].
    + exists 71, "control", true. split; [repeat constructor|done].
    + exists 11, "cp", false. split; [repeat constructor|done].
    + exists 11, "cp", true. split; [repeat constructor|done].
  - right. intros n stat pct Hin ->. apply Hout.
    unfold ATTRIBUTES in Hin. rewrite !elem_of_cons, elem_of_nil in Hin.
    destruct Hin as [[= -> ->]|[[= -> ->]|[[= -> ->]|[]]]]; destruct pct;
      rewrite !elem_of_cons; tauto.
Qed.

Lemma stat_key_inj n stat pct n' stat' pct' :
  (n, stat) ∈ ATTRIBUTES → (n', stat') ∈ ATTRIBUTES →
  stat_key stat pct = stat_key stat' pct' → n = n'.
Proof.
  unfold ATTRIBUTES. rewrite !elem_of_cons, !elem_of_nil.
  intros [[= -> ->]|[[= -> ->]|[[= -> ->]|[]]]]
         [[= -> ->]|[[= -> ->]|[[= -> ->]|[]]]];
    destruct pct, pct'; done.
Qed.

Lemma scan_key_present key quality attrs p :
  stats p.1 = ∅ → stats p.2 = ∅ →
  is_Some (stats (side quality (foldl scan_attribute p attrs)) !! key)
  ↔ ∃ n stat pct attr,
      (n, stat) ∈ ATTRIBUTES ∧ key = stat_key stat pct
      ∧ attr ∈ attrs ∧ id attr = n.
Proof.
  intros Hfood Hfood_hq.
  assert (∀ k, stats (side quality p) !! k = None) as Hempty.
  { intros k. destruct quality; simpl; by rewrite ?Hfood, ?Hfood_hq. }
  destruct (stat_key_cases key) as [(n & stat & pct & Hin & ->)|Hother].
  - rewrite (scan_lookup n stat pct quality attrs p Hin), Hempty.
    split.
    + intros Hsome.
      assert (is_Some (last (filter (λ attr, id attr = n) attrs))) as Hlast.
      { destruct (last (filter _ attrs)); [eauto|]. by destruct Hsome. }
      apply last_filter_is_Some in Hlast as (attr & Hattr & Hid).
      by exists n, stat, pct, attr.
    + intros (n' & stat' & pct' & attr & Hin' & Hkey & Hattr & Hid).
      assert (n = n') as <- by (by eapply stat_key_inj).
      assert (is_Some (last (filter (λ attr, id attr = n) attrs))) as [a ->].
      { apply last_filter_is_Some. eauto. }
      eauto.
  - rewrite scan_other_key, Hempty by done. split.
    + by intros [? ?].
    + intros (n & stat & pct & attr & Hin & -> & _). by destruct (Hother n stat pct).
Qed.

(** X7: the two records of an item have the same attribute keys, and a
    key is there exactly when it is one of the six
    ([craftsmanship_value], [craftsmanship_percent], [control_value],
    [control_percent], [cp_value], [cp_percent]) and the attribute list
    has an entry with the id that goes with it: entries with any other
    id leave no trace. *)
Theorem stat_keys_follow_ids net url fuel st data counter log :
  fetch_page net url fuel (sem st) = (Returned data, counter, log) →
  ∃ food food_hq st',
    fetch_item net url fuel st = (Returned [food; food_hq], st')
    ∧ dom (stats food) = dom (stats food_hq)
    ∧ ∀ key,
        key ∈ dom (stats food)
        ↔ ∃ n stat pct attr,
            (n, stat) ∈ ATTRIBUTES ∧ key = stat_key stat pct
            ∧ attr ∈ attributes_params data ∧ id attr = n.
Proof.
  intros Hpage. rewrite (fetch_item_returned _ _ _ _ _ _ _ Hpage).
  rewrite make_records_returned. simpl heap. simpl sem.
  match goal with |- context [foldl scan_attribute ?q _] => set (p0 := q) end.
  set (p := foldl scan_attribute p0 _).
  eexists p.1, p.2, _. split; [done|].
  pose proof (λ key quality,
                scan_key_present key quality (attributes_params data) p0
                  eq_refl eq_refl) as Hkeys.
  fold p in Hkeys. split.
  - apply set_eq. intros key. rewrite !elem_of_dom.
    rewrite (Hkeys key false), (Hkeys key true). done.
  - intros key. rewrite elem_of_dom. apply (Hkeys key false).
Qed.

Lemma stat_keys_follow_ids_witness :
  ∃ food food_hq st',
    fetch_item Demo.net "/item/banana" 1 Demo.init = (Returned [food; food_hq], st')
    ∧ dom (stats food) = dom (stats food_hq)
    ∧ ∀ key,
        key ∈ dom (stats food)
        ↔ ∃ n stat pct attr,
            (n, stat) ∈ ATTRIBUTES ∧ key = stat_key stat pct
            ∧ attr ∈ attributes_params Demo.banana ∧ id attr = n.
Proof.
  apply (stat_keys_follow_ids Demo.net "/item/banana" 1 Demo.init Demo.banana 4 []).
  reflexivity.
Defined.

(** ** The harvest frame *)

(** X8: the records [fetch_items] collects each have a dictionary of
    names of their own: no two records of the list share one, each was
    created during the harvest, and the objects that existed before are
    as they were, as is the counter of the semaphore. *)
Theorem harvest_makes_fresh_dictionaries net completed fuel st food st' :
  fetch_items net completed fuel st = (Returned food, st') →
  NoDup (name <$> food)
  ∧ (∀ f, f ∈ food → (name f ∉ dom (heap st)) ∧ (name f ∈ dom (heap st')))
  ∧ heap st ⊆ heap st'
  ∧ sem st' = sem st.
Proof.
  unfold fetch_items.
  intros (Hsem & Hsub & new & -> & _ & Hnd & Hfresh & Hrec & _)%fetch_items_from_spec.
  split_and!; try done.
  intros f Hf. split; [by apply Hfresh|].
  destruct (Hrec f Hf) as (data & quality & _ & _ & Hname).
  apply elem_of_dom. eauto.
Qed.

Lemma harvest_makes_fresh_dictionaries_witness :
  ∃ food st',
    fetch_items Demo.net ["/item/cider"; "/item/apple"] 5 Demo.loaded
    = (Returned food, st')
    ∧ NoDup (name <$> food)
    ∧ heap st' !! 1%positive = Some Demo.ja.
Proof.
  destruct (fetch_items Demo.net ["/item/cider"; "/item/apple"] 5 Demo.loaded)
    as [[food| |] st'] eqn:Hrun; [|by vm_compute in Hrun..].
  exists food, st'. split; [reflexivity|].
  destruct (harvest_makes_fresh_dictionaries Demo.net
              ["/item/cider"; "/item/apple"] 5 Demo.loaded food st' Hrun)
    as (Hnd & _ & Hsub & _).
  split; [exact Hnd|].
  apply (lookup_weaken _ _ _ _ (lookup_singleton_eq 1%positive Demo.ja) Hsub).
Defined.

(** ** What is written for a category *)

Lemma scan_attribute_stats p p' attr :
  stats p.1 = stats p'.1 → stats p.2 = stats p'.2 →
  stats (scan_attribute p attr).1 = stats (scan_attribute p' attr).1
  ∧ stats (scan_attribute p attr).2 = stats (scan_attribute p' attr).2.
Proof.
  destruct p as [f g], p' as [f' g']. simpl. intros Hf Hg.
  unfold scan_attribute, record_attribute.
  repeat case_decide; simpl; rewrite ?Hf, ?Hg; done.
Qed.

Lemma scan_stats attrs :
  ∀ p p',
    stats p.1 = stats p'.1 → stats p.2 = stats p'.2 →
    stats (foldl scan_attribute p attrs).1 = stats (foldl scan_attribute p' attrs).1
    ∧ stats (foldl scan_attribute p attrs).2 = stats (foldl scan_attribute p' attrs).2.
Proof.
  induction attrs as [|attr attrs IH]; intros p p' Hf Hg; [done|].
  simpl. destruct (scan_attribute_stats p p' attr Hf Hg) as [Hf' Hg'].
  by apply IH.
Qed.

Lemma fetch_item_answer net url fuel st r st' :
  fetch_item net url fuel st = (Returned r, st') →
  ∃ data, answer net fuel url = Some data
          ∧ make_records data st = (Returned r, st').
Proof.
  unfold fetch_item.
  intros (data & st1 & (log & Hpage & Hheap)%await_inv & Hmake)%bind_inv.
  unfold fetch_page in Hpage.
  apply retry_returned_inv
    in Hpage as (n & data' & Hn & Hfail & Hload & -> & Hsem & Hcounter & _).
  exists data'. split.
  - unfold answer, fetch_page.
    rewrite (retry_first_loaded (λ d : payload, d) _ fuel n 1 data'); [done|lia|done|].
    split; [|done]. intros j Hj. apply Hfail. lia.
  - destruct st as [counter h], st1 as [counter1 h1]. simpl in *. by subst.
Qed.

Lemma fetch_items_from_dump net fuel completed :
  ∀ food st food' st',
    fetch_items_from net completed fuel food st = (Returned food', st') →
    ∃ new, food' = food ++ new
           ∧ dump (heap st') new = completed ≫= harvest_entries net fuel.
Proof.
  induction completed as [|url completed IH]; intros food st food' st'.
  - intros [= <- <-]. exists []. by rewrite app_nil_r.
  - simpl.
    intros (r & st1 & (data & Hanswer & Hmake)%fetch_item_answer & Hrest)%bind_inv.
    rewrite make_records_returned in Hmake.
    set (l := fresh (dom (heap st))) in *.
    set (h := <[l := names_of data]> (heap st)) in *.
    set (l_hq := fresh (dom h)) in *.
    match type of Hmake with context [foldl scan_attribute ?q _] => set (p0 := q) in * end.
    set (p := foldl scan_attribute p0 _) in *.
    injection Hmake as <- <-.
    destruct (scan_frame (attributes_params data) p0 false) as (Hn & Hq & Hi).
    destruct (scan_frame (attributes_params data) p0 true) as (Hn' & Hq' & Hi').
    fold p in Hn, Hq, Hi, Hn', Hq', Hi'. simpl in Hn, Hq, Hi, Hn', Hq', Hi'.
    pose proof (fetch_items_from_spec _ _ _ _ _ _ _ Hrest) as (_ & Hsub & _).
    simpl in Hsub.
    apply IH in Hrest as (new & -> & Hdump).
    assert (l_hq ≠ l) as Hne by apply fresh_insert_ne.
    assert (deref (heap st') l = names_of data) as Hat_l.
    { assert (heap st' !! l = Some (names_of data)) as Hl.
      { eapply lookup_weaken; [|exact Hsub].
        rewrite lookup_insert_ne by done. apply lookup_insert_eq. }
      unfold deref. by rewrite Hl. }
    assert (deref (heap st') l_hq = names_of data) as Hat_l_hq.
    { assert (heap st' !! l_hq = Some (names_of data)) as Hl.
      { eapply lookup_weaken; [|exact Hsub]. apply lookup_insert_eq. }
      unfold deref. by rewrite Hl. }
    destruct (scan_stats (attributes_params data) p0
                ({| name := 1%positive; hq := false; ilvl := 0; stats := ∅ |},
                 {| name := 1%positive; hq := true; ilvl := 0; stats := ∅ |})
                eq_refl eq_refl) as [Hs Hs'].
    fold p in Hs, Hs'.
    exists (p.1 :: p.2 :: new). split; [by rewrite <- app_assoc|].
    unfold harvest_entries at 1. rewrite Hanswer.
    change (dump (heap st') (p.1 :: p.2 :: new))
      with ((deref (heap st') (name p.1), hq p.1, ilvl p.1, stats p.1)
            :: (deref (heap st') (name p.2), hq p.2, ilvl p.2, stats p.2)
            :: dump (heap st') new).
    rewrite Hn, Hn', Hq, Hq', Hi, Hi', Hat_l, Hat_l_hq, Hs, Hs', Hdump.
    done.
Qed.

Section sort_fmap.
Context {A B K : Type} (key : A → K) (key' : B → K) (lt : K → K → bool).
Context (φ : A → B).
Hypothesis key_φ : ∀ x, key' (φ x) = key x.

Lemma insert_reverse_fmap x l :
  φ <$> insert_reverse key lt x l = insert_reverse key' lt (φ x) (φ <$> l).
Proof.
  induction l as [|y l IH]; [done|].
  simpl. rewrite !key_φ. destruct (lt (key x) (key y)); [|done].
  rewrite fmap_cons. by rewrite IH.
Qed.

Lemma sort_reverse_fmap l :
  φ <$> sort_reverse key lt l = sort_reverse key' lt (φ <$> l).
Proof.
  induction l as [|x l IH]; [done|].
  simpl. by rewrite insert_reverse_fmap, IH.
Qed.

End sort_fmap.

Lemma table_of_keys h (langs : languages) : (table_of h langs).*1 = langs.*1.
Proof.
  unfold table_of. rewrite <- list_fmap_compose. by apply list_fmap_ext.
Qed.

(** The loop over the languages, seen from the dumped records. *)
Lemma localize_dump (langs : languages) h0 h1 out :
  NoDup (name <$> out) → NoDup langs.*1 → "en" ∉ langs.*1 →
  (∀ g lang l, g ∈ out → (lang, l) ∈ langs → l ≠ name g) →
  (∀ lang l, (lang, l) ∈ langs → deref h1 l = deref h0 l) →
  dump (localize langs out h1) out
  = localize_entry (table_of h0 langs) <$> dump h1 out.
Proof.
  intros Hnd Hlangs Hen Hloc Htable.
  unfold dump. rewrite <- list_fmap_compose.
  apply list_fmap_ext. intros i f Hf%list_elem_of_lookup_2. simpl.
  destruct (localize_self langs out h1 f Hf Hnd Hlangs Hen Hloc) as [H1 H2].
  do 3 f_equal. apply map_eq. intros k.
  fold (english_name h1 f).
  destruct (decide (k ∈ langs.*1)) as [Hk|Hk].
  - apply list_elem_of_fmap in Hk as ([lang l] & -> & Hin). simpl.
    rewrite (H1 lang l Hin), (Htable lang l Hin).
    symmetry. apply lookup_union_Some_l.
    apply elem_of_list_to_map_1.
    + rewrite <- list_fmap_compose.
      replace (fst ∘ _) with (@fst string dict); [by rewrite table_of_keys|done].
    + apply list_elem_of_fmap.
      exists (lang, deref h0 l). split; [done|].
      unfold table_of. apply list_elem_of_fmap. by exists (lang, l).
  - rewrite (H2 k Hk). symmetry. rewrite lookup_union_r; [done|].
    apply not_elem_of_list_to_map_1.
    rewrite <- list_fmap_compose.
    replace (fst ∘ _) with (@fst string dict); [by rewrite table_of_keys|done].
Qed.

Lemma entry_key_dump h f :
  entry_key (deref h (name f), hq f, ilvl f, stats f) = sort_key h f.
Proof. done. Qed.

Lemma entry_key_harvest data quality :
  entry_key (harvest_entry data quality) = (level_item data, name_en data, quality).
Proof.
  unfold entry_key, harvest_entry, names_of. by rewrite lookup_insert_eq.
Qed.

Lemma fetch_all_items_dump net c (langs : languages) schedule pages fuel st out st' :
  fetch_all_items net c langs schedule pages fuel st = (Returned out, st') →
  NoDup langs.*1 → "en" ∉ langs.*1 →
  (∀ lang l, (lang, l) ∈ langs → l ∈ dom (heap st)) →
  ∃ urls,
    fetch_item_urls net c pages fuel st = (Returned urls, st)
    ∧ dump (heap st') out
      = localize_entry (table_of (heap st) langs)
          <$> sort_reverse entry_key key_lt
                (schedule urls ≫= harvest_entries net fuel).
Proof.
  intros (urls & st0 & food & st1 & Hurls & Hfood & -> & Hheap & Hst0)%fetch_all_items_inv
    Hlangs Hen Htable.
  assert (st0 = st) as ->.
  { unfold fetch_item_urls in Hurls.
    by apply enumerate_inv in Hurls as (_ & _ & _ & _ & _ & _ & _ & ->). }
  exists urls. split; [done|].
  unfold fetch_items in Hfood.
  pose proof (fetch_items_from_dump _ _ _ _ _ _ _ Hfood) as (new & Hnew & Hdump).
  rewrite app_nil_l in Hnew. subst food.
  apply fetch_items_from_spec
    in Hfood as (_ & Hsub & new' & Hnew & _ & Hnd & Hfresh & _ & _).
  rewrite app_nil_l in Hnew. subst new'.
  set (out := sort_reverse (sort_key (heap st1)) key_lt new) in *.
  assert (out ≡ₚ new) as Hperm by apply sort_reverse_perm.
  rewrite Hheap.
  rewrite (localize_dump langs (heap st) (heap st1) out); try done.
  - f_equal. rewrite <- Hdump. unfold out, dump.
    apply (sort_reverse_fmap (sort_key (heap st1)) entry_key key_lt).
    intros f. apply entry_key_dump.
  - by rewrite Hperm.
  - intros g lang l Hg Hin ->. rewrite Hperm in Hg.
    apply (Hfresh g Hg). by eapply Htable.
  - intros lang l Hin.
    pose proof (Htable lang l Hin) as [d Hd]%elem_of_dom.
    unfold deref. by rewrite Hd, (lookup_weaken _ _ _ _ Hd Hsub).
Qed.

(** X9: the document written for a category, in full.  Take the tasks
    in the order in which they completed, put for each the two records
    of its payload ([hq] false, then [hq] true) with the four names of
    the payload, sort this list with the stable descending sort on
    (ilvl, English name, hq), and then give every record, for every
    override language, the table's value for its English name or, when
    there is none or it is empty, the English name.  The table is one
    with an entry per language, none for ["en"], loaded before the
    harvest. *)
Theorem written_document net c (langs : languages) schedule pages fuel st out st' :
  fetch_all_items net c langs schedule pages fuel st = (Returned out, st') →
  NoDup langs.*1 → "en" ∉ langs.*1 →
  (∀ lang l, (lang, l) ∈ langs → l ∈ dom (heap st)) →
  ∃ urls,
    fetch_item_urls net c pages fuel st = (Returned urls, st)
    ∧ dump (heap st') out
      = localize_entry (table_of (heap st) langs)
          <$> sort_reverse entry_key key_lt
                (schedule urls ≫= harvest_entries net fuel).
Proof. apply fetch_all_items_dump. Qed.

Lemma written_document_witness :
  ∃ out st' urls,
    fetch_all_items Demo.net Food Demo.langs reverse 5 5 Demo.loaded
    = (Returned out, st')
    ∧ fetch_item_urls Demo.net Food 5 5 Demo.loaded = (Returned urls, Demo.loaded)
    ∧ dump (heap st') out
      = localize_entry (table_of (heap Demo.loaded) Demo.langs)
          <$> sort_reverse entry_key key_lt
                (reverse urls ≫= harvest_entries Demo.net 5).
Proof.
  destruct (fetch_all_items Demo.net Food Demo.langs reverse 5 5 Demo.loaded)
    as [[out| |] st'] eqn:Hrun; [|by vm_compute in Hrun..].
  destruct (written_document Demo.net Food Demo.langs reverse 5 5 Demo.loaded
              out st' Hrun demo_langs_nodup demo_langs_no_en demo_langs_loaded)
    as (urls & Hurls & Hdump).
  exists out, st', urls. split; [reflexivity|]. split; [exact Hurls | exact Hdump].
Defined.

Lemma key_ge_antisym a b : key_ge a b = true → key_ge b a = true → a = b.
Proof.
  destruct a as [[i1 n1] q1], b as [[i2 n2] q2]. rewrite !key_ge_spec.
  intros [?|[-> Hab]] [?|[? Hba]]; try lia.
  destruct Hab as [Hab|[-> Hab]], Hba as [Hba|[Heq Hba]].
  - by rewrite (string_ltb_asym _ _ Hab) in Hba.
  - subst. apply string_ltb_le in Hab as [_ []]. done.
  - apply string_ltb_le in Hba as [_ []]. done.
  - do 2 f_equal. destruct q1, q2; naive_solver.
Qed.

Lemma elem_of_harvest_entries net fuel (urls : list string) e :
  e ∈ urls ≫= harvest_entries net fuel →
  ∃ url data quality,
    url ∈ urls ∧ answer net fuel url = Some data ∧ e = harvest_entry data quality.
Proof.
  intros (url & He & Hurl)%list_elem_of_bind.
  unfold harvest_entries in He.
  destruct (answer net fuel url) as [data|] eqn:Hanswer.
  - rewrite !elem_of_cons, elem_of_nil in He.
    destruct He as [->|[->|[]]]; eauto 10.
  - by apply elem_of_nil in He.
Qed.

(** ** The override table, whatever its languages *)

Lemma table_of_cons h lang l (langs : languages) :
  table_of h ((lang, l) :: langs) = (lang, deref h l) :: table_of h langs.
Proof. done. Qed.

Lemma table_of_ext h h' (langs : languages) :
  (∀ lang l, (lang, l) ∈ langs → deref h' l = deref h l) →
  table_of h' langs = table_of h langs.
Proof.
  intros Hsame. unfold table_of. apply list_fmap_ext.
  intros i [lang l] Hin%list_elem_of_lookup_2. simpl. by rewrite (Hsame lang l).
Qed.

(** The inner loop, seen from the dictionary of names of [f]: the
    table's dictionaries are other objects than the one of [f]. *)
Lemma localize_item_names (langs : languages) f h :
  (∀ lang l, (lang, l) ∈ langs → l ≠ name f) →
  deref (localize_item langs h f) (name f)
  = assign_names (table_of h langs) (deref h (name f)).
Proof.
  unfold localize_item. revert h.
  induction langs as [|[lang l] langs IH]; intros h Hloc; [done|].
  cbn [foldl]. rewrite IH by (intros lang' l' Hin; apply (Hloc lang' l'); by right).
  rewrite table_of_cons. unfold assign_names at 2. cbn [foldl fst snd].
  fold (english_name h f).
  rewrite localize_name_self.
  rewrite (table_of_ext h (localize_name f h (lang, l))); [done|].
  intros lang' l' Hin. unfold deref. rewrite localize_name_other; [done|].
  apply (Hloc lang' l'). by right.
Qed.

(** The two loops, seen from the dumped records: no hypothesis on the
    languages of the table. *)
Lemma localize_dump_names (langs : languages) h0 h1 out :
  NoDup (name <$> out) →
  (∀ g lang l, g ∈ out → (lang, l) ∈ langs → l ≠ name g) →
  (∀ lang l, (lang, l) ∈ langs → deref h1 l = deref h0 l) →
  dump (localize langs out h1) out
  = assign_entry (table_of h0 langs) <$> dump h1 out.
Proof.
  intros Hnd Hloc Htable.
  unfold dump. rewrite <- list_fmap_compose.
  apply list_fmap_ext. intros i f Hf%list_elem_of_lookup_2. simpl.
  do 3 f_equal.
  pose proof Hf as (out1 & out2 & Hout)%list_elem_of_split.
  rewrite Hout in Hnd. rewrite fmap_app, fmap_cons in Hnd.
  apply NoDup_app in Hnd as (_ & Hfresh1 & [Hfresh2 _]%NoDup_cons).
  assert (name f ∉ name <$> out1) as Hf1.
  { intros Hin. apply (Hfresh1 _ Hin). by left. }
  rewrite Hout at 1.
  rewrite localize_app. change (f :: out2) with ([f] ++ out2).
  rewrite localize_app.
  unfold deref at 1. rewrite localize_other by done.
  fold (deref (localize langs [f] (localize langs out1 h1)) (name f)).
  change (localize langs [f] (localize langs out1 h1))
    with (localize_item langs (localize langs out1 h1) f).
  rewrite localize_item_names by (intros lang l Hin; by apply (Hloc f lang l)).
  f_equal.
  - rewrite <- (table_of_ext h0 h1 langs) by done.
    apply table_of_ext. intros lang l Hin.
    unfold deref. rewrite localize_other; [done|].
    intros (g & Hg & Hin')%list_elem_of_fmap.
    apply (Hloc g lang l); [|done..].
    rewrite Hout. apply elem_of_app. by left.
  - unfold deref. by rewrite localize_other.
Qed.

Lemma fetch_all_items_names_dump net c (langs : languages) schedule pages fuel
    st out st' :
  fetch_all_items net c langs schedule pages fuel st = (Returned out, st') →
  (∀ lang l, (lang, l) ∈ langs → l ∈ dom (heap st)) →
  ∃ urls,
    fetch_item_urls net c pages fuel st = (Returned urls, st)
    ∧ dump (heap st') out
      = assign_entry (table_of (heap st) langs)
          <$> sort_reverse entry_key key_lt
                (schedule urls ≫= harvest_entries net fuel).
Proof.
  intros (urls & st0 & food & st1 & Hurls & Hfood & -> & Hheap & Hst0)%fetch_all_items_inv
    Htable.
  assert (st0 = st) as ->.
  { unfold fetch_item_urls in Hurls.
    by apply enumerate_inv in Hurls as (_ & _ & _ & _ & _ & _ & _ & ->). }
  exists urls. split; [done|].
  unfold fetch_items in Hfood.
  pose proof (fetch_items_from_dump _ _ _ _ _ _ _ Hfood) as (new & Hnew & Hdump).
  rewrite app_nil_l in Hnew. subst food.
  apply fetch_items_from_spec
    in Hfood as (_ & Hsub & new' & Hnew & _ & Hnd & Hfresh & _ & _).
  rewrite app_nil_l in Hnew. subst new'.
  set (out := sort_reverse (sort_key (heap st1)) key_lt new) in *.
  assert (out ≡ₚ new) as Hperm by apply sort_reverse_perm.
  rewrite Hheap.
  rewrite (localize_dump_names langs (heap st) (heap st1) out); try done.
  - f_equal. rewrite <- Hdump. unfold out, dump.
    apply (sort_reverse_fmap (sort_key (heap st1)) entry_key key_lt).
    intros f. apply entry_key_dump.
  - by rewrite Hperm.
  - intros g lang l Hg Hin ->. rewrite Hperm in Hg.
    apply (Hfresh g Hg). by eapply Htable.
  - intros lang l Hin.
    pose proof (Htable lang l Hin) as [d Hd]%elem_of_dom.
    unfold deref. by rewrite Hd, (lookup_weaken _ _ _ _ Hd Hsub).
Qed.

(** X10: the document written for a category does not depend on the
    order in which the detail tasks complete (each order a
    rearrangement of the tasks), as long as no two different payloads
    have the same level and the same English name (records that sort
    apart are put in their place by the sort; records that sort
    together are left in the order of completion).  This holds for any
    override table, one with an entry for ["en"] too; its dictionaries
    are objects that exist before the run, as [main] loads them. *)
Theorem document_independent_of_completion_order net c (langs : languages)
    schedule1 schedule2 pages fuel st out1 st1 out2 st2 :
  fetch_all_items net c langs schedule1 pages fuel st = (Returned out1, st1) →
  fetch_all_items net c langs schedule2 pages fuel st = (Returned out2, st2) →
  (∀ lang l, (lang, l) ∈ langs → l ∈ dom (heap st)) →
  (∀ urls, schedule1 urls ≡ₚ urls) → (∀ urls, schedule2 urls ≡ₚ urls) →
  (∀ urls, fetch_item_urls net c pages fuel st = (Returned urls, st) →
           keys_tell_apart net fuel urls) →
  dump (heap st1) out1 = dump (heap st2) out2.
Proof.
  intros Hrun1 Hrun2 Htable Hs1 Hs2 Hapart.
  destruct (fetch_all_items_names_dump _ _ _ _ _ _ _ _ _ Hrun1 Htable)
    as (urls & Hurls & ->).
  destruct (fetch_all_items_names_dump _ _ _ _ _ _ _ _ _ Hrun2 Htable)
    as (urls' & Hurls' & ->).
  assert (urls' = urls) as -> by congruence.
  specialize (Hapart urls Hurls). f_equal.
  apply (StronglySorted_unique_strong
           (λ e e', key_ge (entry_key e) (entry_key e') = true)).
  - intros e e' He He' Hge Hge'.
    rewrite sort_reverse_perm, Hs1 in He. rewrite sort_reverse_perm, Hs2 in He'.
    apply elem_of_harvest_entries in He as (url & data & q & Hurl & Hdata & ->).
    apply elem_of_harvest_entries in He' as (url' & data' & q' & Hurl' & Hdata' & ->).
    pose proof (key_ge_antisym _ _ Hge Hge') as Hkey.
    rewrite !entry_key_harvest in Hkey. injection Hkey as Hlevel Hname ->.
    by rewrite (Hapart url url' data data' Hurl Hurl' Hdata Hdata' Hlevel Hname).
  - apply (sort_reverse_sorted entry_key key_lt key_ge);
      [apply key_lt_ge | apply key_ge_total | apply key_ge_trans].
  - apply (sort_reverse_sorted entry_key key_lt key_ge);
      [apply key_lt_ge | apply key_ge_total | apply key_ge_trans].
  - rewrite !sort_reverse_perm. by rewrite Hs1, Hs2.
Qed.

Lemma document_independent_of_completion_order_witness :
  ∃ out1 st1 out2 st2,
    fetch_all_items Demo.net Food Demo.langs_en reverse 5 5 Demo.loaded_en
    = (Returned out1, st1)
    ∧ fetch_all_items Demo.net Food Demo.langs_en (λ urls, urls) 5 5 Demo.loaded_en
      = (Returned out2, st2)
    ∧ dump (heap st1) out1 = dump (heap st2) out2.
Proof.
  destruct (fetch_all_items Demo.net Food Demo.langs_en reverse 5 5 Demo.loaded_en)
    as [[out1| |] st1] eqn:Hrun1; [|by vm_compute in Hrun1..].
  destruct (fetch_all_items Demo.net Food Demo.langs_en (λ urls, urls) 5 5
              Demo.loaded_en)
    as [[out2| |] st2] eqn:Hrun2; [|by vm_compute in Hrun2..].
  exists out1, st1, out2, st2. split; [reflexivity|]. split; [reflexivity|].
  apply (document_independent_of_completion_order Demo.net Food Demo.langs_en
           reverse (λ urls, urls) 5 5 Demo.loaded_en out1 st1 out2 st2 Hrun1 Hrun2
           demo_langs_en_loaded).
  - intros urls. apply reverse_Permutation.
  - intros urls. reflexivity.
  - intros urls Hurls.
    assert (urls = ["/item/apple"; "/item/banana"; "/item/cider"]) as ->.
    { vm_compute in Hurls. by injection Hurls as <-. }
    intros url url' data data' Hurl Hurl' Hdata Hdata' _ Hname.
    rewrite !elem_of_cons, elem_of_nil in Hurl, Hurl'.
    destruct Hurl as [->|[->|[->|[]]]], Hurl' as [->|[->|[->|[]]]];
      vm_compute in Hdata, Hdata';
      injection Hdata as <-; injection Hdata' as <-;
      (reflexivity || discriminate Hname).
Defined.

(** ** The command line *)

Lemma split_0 sep s : split sep 0 s = [s].
Proof.
  induction s as [|a s IH]; [done|].
  simpl. case_decide; [done|]. by rewrite IH.
Qed.

Lemma split_no_sep sep maxsplit s :
  occurs sep s = false → split sep maxsplit s = [s].
Proof.
  induction s as [|a s IH]; [done|].
  simpl. intros [Ha Hs]%orb_false_elim. apply bool_decide_eq_false in Ha.
  rewrite decide_False by done. by rewrite IH.
Qed.

Lemma split_at_sep sep maxsplit s1 s2 :
  occurs sep s1 = false →
  split sep (S maxsplit) (s1 +:+ String sep s2) = s1 :: split sep maxsplit s2.
Proof.
  induction s1 as [|a s1 IH]; simpl.
  - intros _. by rewrite decide_True.
  - intros [Ha Hs]%orb_false_elim. apply bool_decide_eq_false in Ha.
    rewrite decide_False by done. by rewrite IH.
Qed.

Lemma first_sep sep s :
  occurs sep s = false
  ∨ ∃ s1 s2, s = s1 +:+ String sep s2 ∧ occurs sep s1 = false.
Proof.
  induction s as [|a s IH]; [by left|].
  destruct (decide (a = sep)) as [->|Ha].
  - right. by exists EmptyString, s.
  - destruct IH as [Hs|(s1 & s2 & -> & Hs1)].
    + left. simpl. by rewrite bool_decide_false.
    + right. exists (String a s1), s2. split; [done|].
      simpl. by rewrite bool_decide_false.
Qed.

(** X11: a [--lang-file] option is accepted exactly when it has one
    ["="] in it; it then gives what stands before the sign as the
    language and what stands after it as the path.  With no ["="], or
    with a second one (as in a path that has the sign in it), the
    unpacking of the split raises. *)
Theorem lang_and_path_one_sign f lang path :
  lang_and_path f = Some (lang, path)
  ↔ f = lang +:+ String "="%char path
    ∧ occurs "="%char lang = false ∧ occurs "="%char path = false.
Proof.
  unfold lang_and_path. split.
  - destruct (first_sep "="%char f) as [Hf|(s1 & s2 & -> & Hs1)].
    { by rewrite split_no_sep. }
    rewrite split_at_sep by done.
    destruct (first_sep "="%char s2) as [Hs2|(t1 & t2 & -> & Ht1)].
    + rewrite split_no_sep by done. by intros [= <- <-].
    + rewrite split_at_sep, split_0 by done. done.
  - intros (-> & Hlang & Hpath).
    by rewrite split_at_sep, split_no_sep.
Qed.

(** ** Loading the tables *)

Lemma elem_of_dict_set {V} k (v : V) d k' v' :
  NoDup d.*1 →
  (k', v') ∈ dict_set k v d ↔ (k' = k ∧ v' = v) ∨ (k' ≠ k ∧ (k', v') ∈ d).
Proof.
  induction d as [|[k0 v0] d IH]; simpl; intros Hnd.
  - rewrite list_elem_of_singleton. split.
    + intros [= -> ->]. by left.
    + intros [[-> ->]|[_ ?%elem_of_nil]]; done.
  - apply NoDup_cons in Hnd as [Hk0 Hnd]. case_decide as Hk; subst.
    + rewrite !elem_of_cons. split.
      * intros [[= -> ->]|Hin]; [by left|]. right. split; [|by right].
        intros ->. apply Hk0, list_elem_of_fmap. by exists (k, v').
      * intros [[-> ->]|[Hne [[= -> ->]|Hin]]]; [by left|done|by right].
    + rewrite !elem_of_cons, (IH Hnd). split.
      * intros [[= -> ->]|[[-> ->]|[Hne Hin]]].
        -- right. split; [done|by left].
        -- by left.
        -- right. split; [done|by right].
      * intros [[-> ->]|[Hne [[= -> ->]|Hin]]].
        -- right. by left.
        -- by left.
        -- right. right. done.
Qed.

Lemma dict_set_keys {V} k (v : V) d k' :
  k' ∈ (dict_set k v d).*1 ↔ k' = k ∨ k' ∈ d.*1.
Proof.
  induction d as [|[k0 v0] d IH]; simpl.
  - rewrite list_elem_of_singleton, elem_of_nil. tauto.
  - case_decide as Hk; subst; simpl; rewrite !elem_of_cons; [tauto|].
    rewrite IH. tauto.
Qed.

Lemma dict_set_NoDup {V} k (v : V) d : NoDup d.*1 → NoDup (dict_set k v d).*1.
Proof.
  induction d as [|[k0 v0] d IH]; simpl; intros Hnd.
  - repeat constructor. by intros ?%elem_of_nil.
  - apply NoDup_cons in Hnd as [Hk0 Hnd]. case_decide as Hk; subst; simpl.
    + by constructor.
    + constructor; [|by apply IH].
      rewrite dict_set_keys. intros [->|Hin]; done.
Qed.

Lemma load_lang_files_spec disk lang_file :
  ∀ (langs0 : languages) st (langs : languages) st',
    NoDup langs0.*1 →
    load_lang_files disk lang_file langs0 st = Some (langs, st') →
    NoDup langs.*1 ∧ heap st ⊆ heap st' ∧ sem st' = sem st
    ∧ (∀ lang l, (lang, l) ∈ langs →
         ((lang, l) ∈ langs0
          ∧ ∀ g p, g ∈ lang_file → lang_and_path g ≠ Some (lang, p))
         ∨ ((l ∉ dom (heap st))
            ∧ ∃ before f after path names,
                lang_file = before ++ f :: after
                ∧ lang_and_path f = Some (lang, path)
                ∧ (∀ g p, g ∈ after → lang_and_path g ≠ Some (lang, p))
                ∧ disk path = Some names
                ∧ heap st' !! l = Some names))
    ∧ (∀ lang, lang ∈ langs.*1
               ↔ lang ∈ langs0.*1
                 ∨ ∃ f path, f ∈ lang_file ∧ lang_and_path f = Some (lang, path)).
Proof.
  induction lang_file as [|f0 lang_file IH]; intros langs0 st langs st' Hnd0.
  - intros [= <- <-]. split_and!; try done.
    + intros lang l Hin. left. split; [done|]. by intros g p ?%elem_of_nil.
    + intros lang. split; [by left|].
      intros [?|(f & path & ?%elem_of_nil & _)]; done.
  - simpl. destruct (lang_and_path f0) as [[lang0 path0]|] eqn:Hf0; [|done].
    simpl. destruct (disk path0) as [names0|] eqn:Hpath0; [|done]. simpl.
    set (l0 := fresh (dom (heap st))).
    intros Hload.
    apply IH in Hload as (Hnd & Hsub & Hsem & Hentries & Hkeys);
      [|by apply dict_set_NoDup].
    simpl in Hsub, Hsem.
    assert (l0 ∉ dom (heap st)) as Hl0 by apply is_fresh.
    assert (heap st ⊆ heap st') as Hsub'.
    { etrans; [|exact Hsub]. apply insert_subseteq. by apply not_elem_of_dom. }
    split_and!; try done.
    + intros lang l [[Hin Hrest]|[Hl Hnew]]%Hentries.
      * apply elem_of_dict_set in Hin as [[-> ->]|[Hne Hin]]; [| |done].
        -- right. split; [done|].
           exists [], f0, lang_file, path0, names0. split_and!; try done.
           eapply lookup_weaken; [|exact Hsub]. apply lookup_insert_eq.
        -- left. split; [done|]. intros g p [->|Hg]%elem_of_cons.
           ++ rewrite Hf0. by intros [= <- _].
           ++ by apply Hrest.
      * right. simpl in Hl. split.
        { rewrite dom_insert_L in Hl. set_solver. }
        destruct Hnew as (before & f & after & path & names & -> & ? & ? & ? & ?).
        exists (f0 :: before), f, after, path, names. by split_and!.
    + intros lang. rewrite Hkeys, dict_set_keys. split.
      * intros [[->|Hin]|(f & path & Hf & Hparse)].
        -- right. exists f0, path0. split; [by left|done].
        -- by left.
        -- right. exists f, path. split; [by right|done].
      * intros [Hin|(f & path & [->|Hf]%elem_of_cons & Hparse)].
        -- left. by right.
        -- left. left. rewrite Hf0 in Hparse. by injection Hparse as -> _.
        -- right. by exists f, path.
Qed.

(** X12: when the tables load, the table has one entry for each
    language named by an option and no other; the dictionary of a
    language is a new object that holds what was read from the file of
    the last option naming that language (a later option replaces an
    earlier one for the same language); what was in the heap before is
    as it was. *)
Theorem tables_loaded_last_wins disk lang_file st (langs : languages) st' :
  load_lang_files disk lang_file [] st = Some (langs, st') →
  NoDup langs.*1 ∧ heap st ⊆ heap st'
  ∧ (∀ lang, lang ∈ langs.*1
             ↔ ∃ f path, f ∈ lang_file ∧ lang_and_path f = Some (lang, path))
  ∧ (∀ lang l, (lang, l) ∈ langs →
       (l ∉ dom (heap st))
       ∧ ∃ before f after path names,
           lang_file = before ++ f :: after
           ∧ lang_and_path f = Some (lang, path)
           ∧ (∀ g p, g ∈ after → lang_and_path g ≠ Some (lang, p))
           ∧ disk path = Some names
           ∧ heap st' !! l = Some names).
Proof.
  intros (Hnd & Hsub & _ & Hentries & Hkeys)%load_lang_files_spec; [|constructor].
  split_and!; try done.
  - intros lang. rewrite Hkeys. split; [|by right].
    by intros [?%elem_of_nil|?].
  - intros lang l [[?%elem_of_nil _]|?]%Hentries; done.
Qed.

Lemma tables_loaded_last_wins_witness :
  ∃ (langs : languages) st',
    load_lang_files Demo.disk ["ja=old.json"; "ja=ja.json"] [] Demo.init
    = Some (langs, st')
    ∧ NoDup langs.*1
    ∧ ∀ lang l, (lang, l) ∈ langs →
        (l ∉ dom (heap Demo.init))
        ∧ ∃ before f after path names,
            ["ja=old.json"; "ja=ja.json"] = before ++ f :: after
            ∧ lang_and_path f = Some (lang, path)
            ∧ (∀ g p, g ∈ after → lang_and_path g ≠ Some (lang, p))
            ∧ Demo.disk path = Some names
            ∧ heap st' !! l = Some names.
Proof.
  destruct (load_lang_files Demo.disk ["ja=old.json"; "ja=ja.json"] [] Demo.init)
    as [[langs st']|] eqn:Hload; [|by vm_compute in Hload].
  exists langs, st'. split; [reflexivity|].
  destruct (tables_loaded_last_wins Demo.disk ["ja=old.json"; "ja=ja.json"]
              Demo.init langs st' Hload) as (Hnd & _ & _ & Hentries).
  split; [exact Hnd | exact Hentries].
Defined.




(** ** The two categories, one after the other *)

Lemma fetch_all_items_frame net c (langs : languages) schedule pages fuel st out st' :
  fetch_all_items net c langs schedule pages fuel st = (Returned out, st') →
  ∀ l, l ∈ dom (heap st) → heap st' !! l = heap st !! l.
Proof.
  intros (h1 & Hsub & Hheap & _ & Hfresh & _ & _)%fetch_all_items_records.
  intros l [d Hd]%elem_of_dom. rewrite Hheap, localize_other.
  - by rewrite Hd, (lookup_weaken _ _ _ _ Hd Hsub).
  - intros (f & -> & Hf)%list_elem_of_fmap. apply (Hfresh f Hf).
    apply elem_of_dom. eauto.
Qed.

(** X14: when [scrape_items] comes to its end it has opened and
    written two files, ["out/Food.json"] and then
    ["out/Medicine.json"], each with the document of its category: the
    records of the payloads in the order of completion, sorted, and
    then given their names language by language from the override table
    as it was loaded (its dictionaries being objects that exist before
    the run, as [main] loads them; any languages, ["en"] too).  The
    work on the first category leaves the table as it found it for the
    second. *)
Theorem scrape_items_documents can_open net (langs : languages) schedule pages fuel
    st st' written :
  scrape_items can_open net langs schedule pages fuel st = (Ended, st', written) →
  (∀ lang l, (lang, l) ∈ langs → l ∈ dom (heap st)) →
  ∃ urls_food urls_medicine st1,
    fetch_item_urls net Food pages fuel st = (Returned urls_food, st)
    ∧ fetch_item_urls net Medicine pages fuel st1 = (Returned urls_medicine, st1)
    ∧ sem st1 = sem st
    ∧ can_open "out/Food.json" = true
    ∧ can_open "out/Medicine.json" = true
    ∧ written
      = [("out/Food.json",
          assign_entry (table_of (heap st) langs)
            <$> sort_reverse entry_key key_lt
                  (schedule urls_food ≫= harvest_entries net fuel));
         ("out/Medicine.json",
          assign_entry (table_of (heap st) langs)
            <$> sort_reverse entry_key key_lt
                  (schedule urls_medicine ≫= harvest_entries net fuel))].
Proof.
  unfold scrape_items, CATEGORIES_keys. simpl scrape_categories.
  pose proof (keeps_counter_fetch_all_items net Food langs schedule pages fuel st) as Hc.
  destruct (fetch_all_items net Food langs schedule pages fuel st)
    as [[food| |] st1] eqn:Hfood; [|done..].
  change ("out/" +:+ "Food" +:+ ".json") with "out/Food.json".
  change ("out/" +:+ "Medicine" +:+ ".json") with "out/Medicine.json".
  destruct (can_open "out/Food.json") eqn:Hopen_food; [|done].
  destruct (fetch_all_items net Medicine langs schedule pages fuel st1)
    as [[medicine| |] st2] eqn:Hmedicine; [|done..].
  destruct (can_open "out/Medicine.json") eqn:Hopen_medicine; [|done].
  intros [= <- <-] Htable. simpl in Hc.
  pose proof (fetch_all_items_frame _ _ _ _ _ _ _ _ _ Hfood) as Hframe.
  assert (∀ lang l, (lang, l) ∈ langs → l ∈ dom (heap st1)) as Htable1.
  { intros lang l Hin. pose proof (Htable lang l Hin) as Hl.
    pose proof Hl as [d Hd]%elem_of_dom.
    apply elem_of_dom. exists d. by rewrite Hframe. }
  assert (table_of (heap st1) langs = table_of (heap st) langs) as Htable_eq.
  { apply table_of_ext. intros lang l Hin.
    unfold deref. by rewrite (Hframe l (Htable lang l Hin)). }
  destruct (fetch_all_items_names_dump _ _ _ _ _ _ _ _ _ Hfood Htable)
    as (urls_food & Hurls_food & ->).
  destruct (fetch_all_items_names_dump _ _ _ _ _ _ _ _ _ Hmedicine Htable1)
    as (urls_medicine & Hurls_medicine & ->).
  exists urls_food, urls_medicine, st1. rewrite Htable_eq. by split_and!.
Qed.

Lemma scrape_items_documents_witness :
  ∃ st' written urls_food urls_medicine st1,
    scrape_items (λ _, true) Demo.net Demo.langs_en reverse 5 5 Demo.loaded_en
    = (Ended, st', written)
    ∧ fetch_item_urls Demo.net Food 5 5 Demo.loaded_en
      = (Returned urls_food, Demo.loaded_en)
    ∧ fetch_item_urls Demo.net Medicine 5 5 st1 = (Returned urls_medicine, st1)
    ∧ sem st1 = sem Demo.loaded_en
    ∧ written
      = [("out/Food.json",
          assign_entry (table_of (heap Demo.loaded_en) Demo.langs_en)
            <$> sort_reverse entry_key key_lt
                  (reverse urls_food ≫= harvest_entries Demo.net 5));
         ("out/Medicine.json",
          assign_entry (table_of (heap Demo.loaded_en) Demo.langs_en)
            <$> sort_reverse entry_key key_lt
                  (reverse urls_medicine ≫= harvest_entries Demo.net 5))].
Proof.
  destruct (scrape_items (λ _, true) Demo.net Demo.langs_en reverse 5 5 Demo.loaded_en)
    as [[[ | | | ] st'] written] eqn:Hrun; [|by vm_compute in Hrun..].
  destruct (scrape_items_documents (λ _, true) Demo.net Demo.langs_en reverse 5 5
              Demo.loaded_en st' written Hrun demo_langs_en_loaded)
    as (urls_food & urls_medicine & st1 & H1 & H2 & H3 & _ & _ & H4).
  exists st', written, urls_food, urls_medicine, st1.
  split; [reflexivity|]. split; [exact H1|]. split; [exact H2|].
  split; [exact H3 | exact H4].
Defined.

(** ** The run comes to its end *)




(** ** More on the event loop *)

(** X16: the counter of the semaphore stays between 0 and the capacity,
    and whenever no task is inside the protected block it is back at
    the capacity: the exceptions of the attempts that failed have not
    cost a permit. *)
Theorem permits_all_back_when_idle net n σ0 σ :
  start n = Some σ0 → rtc (step net) σ0 σ →
  0 ≤ permits σ ≤ n ∧ (in_flight σ = 0 → permits σ = n).
Proof.
  intros Hstart Hrun.
  destruct (run_balanced net n σ0 σ Hrun (start_balanced n σ0 Hstart)) as [Hpos Hsum].
  assert (0 ≤ in_flight σ) by (unfold in_flight; lia). lia.
Qed.

Lemma permits_all_back_when_idle_witness :
  0 ≤ permits Demo.busy ≤ 1 ∧ (in_flight Demo.busy = 0 → permits Demo.busy = 1).
Proof.
  apply (permits_all_back_when_idle Demo.net 1 {| permits := 1; tasks := [] |});
    [reflexivity|].
  eapply rtc_l; [apply (step_spawn _ _ (ListingPage Food 1))|].
  eapply rtc_l; [apply (step_spawn _ _ (DetailPage "/item/apple"))|].
  eapply rtc_l; [|apply rtc_refl].
  exact (step_enter Demo.net
           {| permits := 1;
              tasks := [ {| work := ListingPage Food 1; at_pc := Waiting; attempt := 0 |};
                         {| work := DetailPage "/item/apple"; at_pc := Waiting;
                            attempt := 0 |} ] |}
           0%nat {| work := ListingPage Food 1; at_pc := Waiting; attempt := 0 |} 0
           eq_refl eq_refl eq_refl).
Defined.

(** X17: with a capacity of at least one the event loop is never stuck
    while a task is unfinished: some task can enter the protected block
    or leave it (a step that creates no task). *)
Theorem event_loop_never_stuck net n σ0 σ t :
  start n = Some σ0 → 0 < n → rtc (step net) σ0 σ →
  t ∈ tasks σ → at_pc t ≠ Finished →
  ∃ σ', step net σ σ' ∧ length (tasks σ') = length (tasks σ).
Proof.
  intros Hstart Hn Hrun Ht Hunfinished.
  destruct (run_balanced net n σ0 σ Hrun (start_balanced n σ0 Hstart)) as [Hpos Hsum].
  destruct (filter (λ t, holding t = true) (tasks σ)) as [|t' rest] eqn:Hholding.
  - assert (in_flight σ = 0) as Hidle by (unfold in_flight; by rewrite Hholding).
    assert (at_pc t = Waiting) as Hwaiting.
    { destruct (at_pc t) eqn:Hpc; [done| |done].
      assert (t ∈ filter (λ t, holding t = true) (tasks σ)) as Hin.
      { apply list_elem_of_filter. split; [|done]. unfold holding. by rewrite Hpc. }
      rewrite Hholding in Hin. by apply elem_of_nil in Hin. }
    apply list_elem_of_lookup in Ht as [i Hi].
    eexists. split.
    + apply (step_enter net σ i t (permits σ - 1) Hi Hwaiting).
      apply acquire_Some. split; [lia|done].
    + simpl. apply length_insert.
  - assert (t' ∈ filter (λ t, holding t = true) (tasks σ)) as Hin
      by (rewrite Hholding; left).
    apply list_elem_of_filter in Hin as [Hhold [i Hi]%list_elem_of_lookup].
    assert (at_pc t' = Holding) as Hpc.
    { unfold holding in Hhold. by destruct (at_pc t'). }
    destruct (raises net t') eqn:Hraises.
    + eexists. split; [apply (step_except net σ i t' Hi Hpc Hraises)|].
      simpl. apply length_insert.
    + eexists. split; [apply (step_break net σ i t' Hi Hpc Hraises)|].
      simpl. apply length_insert.
Qed.

Lemma event_loop_never_stuck_witness :
  ∃ σ', step Demo.net Demo.busy σ' ∧ length (tasks σ') = length (tasks Demo.busy).
Proof.
  apply (event_loop_never_stuck Demo.net 1 {| permits := 1; tasks := [] |}
           Demo.busy {| work := DetailPage "/item/apple"; at_pc := Waiting;
                        attempt := 0 |}).
  - reflexivity.
  - lia.
  - eapply rtc_l; [apply (step_spawn _ _ (ListingPage Food 1))|].
    eapply rtc_l; [apply (step_spawn _ _ (DetailPage "/item/apple"))|].
    eapply rtc_l; [|apply rtc_refl].
    exact (step_enter Demo.net
             {| permits := 1;
                tasks := [ {| work := ListingPage Food 1; at_pc := Waiting; attempt := 0 |};
                           {| work := DetailPage "/item/apple"; at_pc := Waiting;
                              attempt := 0 |} ] |}
             0%nat {| work := ListingPage Food 1; at_pc := Waiting; attempt := 0 |} 0
             eq_refl eq_refl eq_refl).
  - right. left.
  - done.
Defined.

Lemma raises_false_loaded net t :
  raises net t = false → job_raised_before net (work t) (attempt t) →
  job_first_loaded net (work t) (attempt t).
Proof.
  unfold raises, job_raised_before, job_first_loaded.
  destruct (work t) as [c page|url]; intros Hr Hbefore.
  - destruct (search net (CATEGORIES c) page (attempt t)) as [| |data] eqn:Hk;
      [done..|]. by exists data.
  - destruct (detail net url (attempt t)) as [| |data] eqn:Hk; [done..|].
    by exists data.
Qed.

Lemma raises_true_again net t :
  raises net t = true → job_raised_before net (work t) (attempt t) →
  job_raised_before net (work (again t)) (attempt (again t)).
Proof.
  unfold raises, job_raised_before. simpl.
  destruct (work t) as [c page|url]; intros Hr Hbefore j Hj;
    (destruct (decide (j = attempt t)) as [->|]; [done|apply Hbefore; lia]).
Qed.

(** X18: however the event loop interleaves the tasks, a task is
    finished only with the first attempt at its target that does not
    raise, every attempt before it having raised: the interleaving has
    no say in what a fetch returns. *)
Theorem task_finishes_at_first_success net n σ0 σ t :
  start n = Some σ0 → rtc (step net) σ0 σ → t ∈ tasks σ →
  job_raised_before net (work t) (attempt t)
  ∧ (at_pc t = Finished → job_first_loaded net (work t) (attempt t)).
Proof.
  intros Hstart Hrun.
  assert (Forall (λ t, job_raised_before net (work t) (attempt t)
                       ∧ (at_pc t = Finished →
                          job_first_loaded net (work t) (attempt t)))
            (tasks σ)) as Hall; [|by rewrite Forall_forall in Hall; apply Hall].
  assert (Forall (λ t, job_raised_before net (work t) (attempt t)
                       ∧ (at_pc t = Finished →
                          job_first_loaded net (work t) (attempt t)))
            (tasks σ0)) as Hinit.
  { unfold start in Hstart. destruct (Limiter.Semaphore n); [|done].
    injection Hstart as <-. constructor. }
  clear Hstart. induction Hrun as [|σ1 σ2 σ3 Hstep _ IH]; [done|].
  apply IH. clear IH.
  inversion Hstep as [? w | ? i t0 held Hi Hpc Hacq
                      | ? i t0 Hi Hpc Hr | ? i t0 Hi Hpc Hr]; subst; simpl.
  - apply Forall_app. split; [done|]. constructor; [|constructor].
    simpl. split; [|done]. destruct w; intros j Hj; lia.
  - apply Forall_insert; [done|].
    destruct (Forall_lookup_1 _ _ _ _ Hinit Hi) as [Hbefore _]. by split.
  - apply Forall_insert; [done|].
    destruct (Forall_lookup_1 _ _ _ _ Hinit Hi) as [Hbefore _].
    split; [done|]. intros _. by apply raises_false_loaded.
  - apply Forall_insert; [done|].
    destruct (Forall_lookup_1 _ _ _ _ Hinit Hi) as [Hbefore _].
    split; [by apply raises_true_again | done].
Qed.

Lemma task_finishes_at_first_success_witness :
  job_raised_before Demo.net (DetailPage "/item/banana") 0
  ∧ (Finished = Finished → job_first_loaded Demo.net (DetailPage "/item/banana") 0).
Proof.
  apply (task_finishes_at_first_success Demo.net 1 {| permits := 1; tasks := [] |}
           Demo.served
           {| work := DetailPage "/item/banana"; at_pc := Finished; attempt := 0 |}).
  - reflexivity.
  - eapply rtc_l; [apply (step_spawn _ _ (DetailPage "/item/banana"))|].
    eapply rtc_l.
    { exact (step_enter Demo.net
               {| permits := 1;
                  tasks := [ {| work := DetailPage "/item/banana"; at_pc := Waiting;
                                attempt := 0 |} ] |}
               0%nat {| work := DetailPage "/item/banana"; at_pc := Waiting;
                        attempt := 0 |} 0
               eq_refl eq_refl eq_refl). }
    eapply rtc_l; [|apply rtc_refl].
    exact (step_break Demo.net
             {| permits := 0;
                tasks := [ {| work := DetailPage "/item/banana"; at_pc := Holding;
                              attempt := 0 |} ] |}
             0%nat {| work := DetailPage "/item/banana"; at_pc := Holding;
                      attempt := 0 |}
             eq_refl eq_refl eq_refl).
  - left.
Defined.

(** ** The order of the attribute entries *)

Lemma NoDup_fmap_inj {A B} (f : A → B) (l : list A) x y :
  NoDup (f <$> l) → x ∈ l → y ∈ l → f x = f y → x = y.
Proof.
  induction l as [|z l IH]; [by intros _ ?%elem_of_nil|].
  rewrite fmap_cons, NoDup_cons, !elem_of_cons.
  intros [Hz Hnd] [->|Hx] [->|Hy] Hxy; [done| | |by apply IH].
  - destruct Hz. rewrite Hxy. apply list_elem_of_fmap. by exists y.
  - destruct Hz. rewrite <- Hxy. apply list_elem_of_fmap. by exists x.
Qed.

Lemma last_filter_perm {A B} (f : A → B) `{!EqDecision B} (b : B) (l l' : list A) :
  l ≡ₚ l' → NoDup (f <$> l) →
  last (filter (λ x, f x = b) l) = last (filter (λ x, f x = b) l').
Proof.
  intros Hperm Hnd.
  destruct (last (filter (λ x, f x = b) l)) as [x|] eqn:Hl;
    destruct (last (filter (λ x, f x = b) l')) as [x'|] eqn:Hl'; [|exfalso..|done].
  - apply last_Some_elem_of, list_elem_of_filter in Hl as [Hx Hin].
    apply last_Some_elem_of, list_elem_of_filter in Hl' as [Hx' Hin'].
    rewrite <- Hperm in Hin'. f_equal.
    apply (NoDup_fmap_inj f l); [done..|congruence].
  - apply last_Some_elem_of, list_elem_of_filter in Hl as [Hx Hin].
    apply last_None in Hl'.
    assert (x ∈ filter (λ x, f x = b) l') as Hin'.
    { apply list_elem_of_filter. by rewrite <- Hperm. }
    rewrite Hl' in Hin'. by apply elem_of_nil in Hin'.
  - apply last_Some_elem_of, list_elem_of_filter in Hl' as [Hx' Hin'].
    apply last_None in Hl.
    assert (x' ∈ filter (λ x, f x = b) l) as Hin.
    { apply list_elem_of_filter. by rewrite Hperm. }
    rewrite Hl in Hin. by apply elem_of_nil in Hin.
Qed.

Lemma scan_perm attrs attrs' p quality :
  attrs ≡ₚ attrs' → NoDup (id <$> attrs) →
  stats (side quality (foldl scan_attribute p attrs))
  = stats (side quality (foldl scan_attribute p attrs')).
Proof.
  intros Hperm Hnd. apply map_eq. intros key.
  destruct (stat_key_cases key) as [(n & stat & pct & Hin & ->)|Hother].
  - rewrite !(scan_lookup n stat pct quality _ p Hin).
    by rewrite (last_filter_perm id n attrs attrs').
  - by rewrite !scan_other_key.
Qed.

Lemma item_eq (f g : item) :
  name f = name g → hq f = hq g → ilvl f = ilvl g → stats f = stats g → f = g.
Proof. destruct f, g. simpl. by intros -> -> -> ->. Qed.

(** X19: as long as no two entries of the attribute list have the same
    id, the order of the entries makes no difference to the records:
    two payloads that differ only in the order of their attribute lists
    give the same pair of records. *)
Theorem records_ignore_attribute_order data data' st :
  name_en data = name_en data' → name_fr data = name_fr data' →
  name_de data = name_de data' → name_ja data = name_ja data' →
  level_item data = level_item data' →
  attributes_params data ≡ₚ attributes_params data' →
  NoDup (id <$> attributes_params data) →
  make_records data st = make_records data' st.
Proof.
  intros Hen Hfr Hde Hja Hlevel Hperm Hnd.
  rewrite !make_records_returned.
  assert (names_of data = names_of data') as Hnames.
  { unfold names_of. by rewrite Hen, Hfr, Hde, Hja. }
  rewrite <- Hnames, <- Hlevel.
  match goal with |- context [foldl scan_attribute ?q (attributes_params data)] =>
    set (p0 := q) end.
  destruct (scan_frame (attributes_params data) p0 false) as (Hn1 & Hq1 & Hi1).
  destruct (scan_frame (attributes_params data) p0 true) as (Hn2 & Hq2 & Hi2).
  destruct (scan_frame (attributes_params data') p0 false) as (Hn1' & Hq1' & Hi1').
  destruct (scan_frame (attributes_params data') p0 true) as (Hn2' & Hq2' & Hi2').
  pose proof (scan_perm _ _ p0 false Hperm Hnd) as Hs1.
  pose proof (scan_perm _ _ p0 true Hperm Hnd) as Hs2.
  simpl side in *.
  do 2 f_equal. f_equal; [|f_equal]; apply item_eq; congruence.
Qed.

Lemma records_ignore_attribute_order_witness :
  make_records Demo.apple Demo.init
  = make_records
      {| name_en := "Apple"; name_fr := "Pomme"; name_de := "Apfel";
         name_ja := "Ringo"; level_item := 10;
         attributes_params := [Demo.attr 11 20 2 25 3; Demo.attr 70 5 3 8 4] |}
      Demo.init.
Proof.
  apply records_ignore_attribute_order; try reflexivity.
  - apply Permutation_swap.
  - simpl. repeat constructor.
    + rewrite list_elem_of_singleton. done.
    + by intros ?%elem_of_nil.
Defined.

Lemma lang_and_path_one_sign_witness :
  lang_and_path "ja=ja.json" = Some ("ja", "ja.json")
  ∧ lang_and_path "ja=a=b.json" ≠ Some ("ja", "a=b.json").
Proof.
  split.
  - apply (proj2 (lang_and_path_one_sign "ja=ja.json" "ja" "ja.json")).
    by split_and!.
  - intros Hparse.
    apply (proj1 (lang_and_path_one_sign "ja=a=b.json" "ja" "a=b.json")) in Hparse
      as (_ & _ & Hpath).
    discriminate Hpath.
Defined.
